(** * The Sudoku solver of [sudoku.py]

    The solver states a 9x9 Sudoku as a 0/1 feasibility problem: one binary
    decision variable per (row, col, value) candidate, 324 linear equalities
    for the rules of the game and one more equality per given cell.  The
    problem is handed to PuLP's CBC backend, and the grid is read back from
    the variables whose value is 1.

    The embedding follows the Python text: dictionaries are [gmap]s, lists are
    lists, loops are folds in an error monad that carries Python exceptions,
    and the backend is a function from the problem to a status and variable
    values, constrained only through an explicit contract. *)

From Stdlib Require Import ZArith Lia Ascii String.
From stdpp Require Import base list gmap strings pretty.

Open Scope Z_scope.

(** ** Python values, exceptions and loops *)

(** A candidate key [(row, col, value)], a tuple of Python ints. *)
Definition Key : Type := Z * Z * Z.

Inductive PyExn : Type :=
  | KeyError (k : Key)
  | TypeError
  | ValueError.

Definition Result (A : Type) : Type := PyExn + A.

Definition ret {A} (a : A) : Result A := inr a.
Definition raise {A} (e : PyExn) : Result A := inl e.
Definition bind {A B} (m : Result A) (f : A → Result B) : Result B :=
  match m with
  | inl e => inl e
  | inr a => f a
  end.

Notation "x ←! m ;; k" := (bind m (λ x, k))
  (at level 100, m at next level, right associativity).

(** [for a in l: s = f(s, a)], stopping at the first exception. *)
Fixpoint foldM {A S} (f : S → A → Result S) (l : list A) (s : S) : Result S :=
  match l with
  | [] => ret s
  | a :: l' => s' ←! f s a ;; foldM f l' s'
  end.

(** [[f(a) for a in l]], stopping at the first exception. *)
Fixpoint mapM {A B} (f : A → Result B) (l : list A) : Result (list B) :=
  match l with
  | [] => ret []
  | a :: l' => b ←! f a ;; bs ←! mapM f l' ;; ret (b :: bs)
  end.

(** [range(lo, hi)]. *)
Definition range (lo hi : Z) : list Z := seqZ lo (hi - lo).

(** [d[k]] on a dictionary: a missing key raises [KeyError]. *)
Definition getitem {V} (d : gmap Key V) (k : Key) : Result V :=
  match d !! k with
  | Some v => ret v
  | None => raise (KeyError k)
  end.

(** ** [re.findall(r"\d+", s)] and [int] on the matches *)

Definition is_digit (a : ascii) : bool :=
  let n := nat_of_ascii a in (48 <=? n)%nat && (n <=? 57)%nat.

(** The maximal runs of digits of [s], left to right; [run] is the run being
    read, most recent digit first. *)
Fixpoint findall_digits_from (run : list ascii) (s : string) : list string :=
  let close := match run with
               | [] => []
               | _ => [string_of_list_ascii (rev run)]
               end in
  match s with
  | EmptyString => close
  | String a s' =>
      if is_digit a then findall_digits_from (a :: run) s'
      else close ++ findall_digits_from [] s'
  end.

Definition findall_digits (s : string) : list string := findall_digits_from [] s.

(** [int(s)] for a string of decimal digits. *)
Definition int_of_digits (s : string) : Z :=
  fold_left (λ acc a, 10 * acc + (Z.of_nat (nat_of_ascii a) - 48))
            (list_ascii_of_string s) 0.

(** ** The part of PuLP that the solver uses *)

Module pulp.

(** A decision variable is identified by its name, as in PuLP's own
    [variablesDict] and in the problem file given to the backend. *)
Definition LpVariable : Type := string.

(** [lpSum(vars) == rhs]: a sum of variables, each with coefficient 1,
    required to equal a constant. *)
Record LpConstraint : Type := mkLpConstraint {
  lhs : list LpVariable;
  rhs : Z
}.

Definition lpSum (vars : list LpVariable) : list LpVariable := vars.

(** [expr == c]. *)
Definition eq_const (expr : list LpVariable) (c : Z) : LpConstraint :=
  {| lhs := expr; rhs := c |}.

Inductive LpStatusCode : Type :=
  | LpStatusNotSolved
  | LpStatusOptimal
  | LpStatusInfeasible
  | LpStatusUnbounded
  | LpStatusUndefined.

(** The dictionary [LpStatus] from status codes to their names. *)
Definition LpStatus (code : LpStatusCode) : string :=
  match code with
  | LpStatusNotSolved => "Not Solved"
  | LpStatusOptimal => "Optimal"
  | LpStatusInfeasible => "Infeasible"
  | LpStatusUnbounded => "Unbounded"
  | LpStatusUndefined => "Undefined"
  end.

(** [LpProblem]: the constraints in the order they were added, the status
    of the last solve, and the value held by each variable ([None] until a
    backend assigns one). *)
Record LpProblem : Type := mkLpProblem {
  constraints : list LpConstraint;
  status : LpStatusCode;
  varValue : LpVariable → option Z
}.

(** [LpProblem('Sudoku')]. *)
Definition new_problem : LpProblem :=
  {| constraints := []; status := LpStatusNotSolved; varValue := λ _, None |}.

(** [prob += c]. *)
Definition add_constraint (prob : LpProblem) (c : LpConstraint) : LpProblem :=
  {| constraints := constraints prob ++ [c];
     status := status prob;
     varValue := varValue prob |}.

(** The name PuLP gives to the variable of index [k] in
    [LpVariable.dicts("Cell", ...)]: ["Cell_" + str(k)] with the blanks of
    the tuple's text replaced by underscores. *)
Definition cell_name (prefix : string) (k : Key) : LpVariable :=
  let '(row, col, value) := k in
  prefix +:+ "_(" +:+ pretty row +:+ ",_" +:+ pretty col +:+ ",_"
         +:+ pretty value +:+ ")".

(** [LpVariable.dicts(prefix, indices, 0, 1, LpBinary)]: a dictionary from
    each index to a fresh binary variable. *)
Definition LpVariable_dicts (prefix : string) (indices : list Key)
  : gmap Key LpVariable :=
  foldl (λ d i, <[i := cell_name prefix i]> d) ∅ indices.

(** One step of filling a dictionary whose keys keep the position of their
    first insertion. *)
Definition dict_add (keys : list LpVariable) (v : LpVariable) : list LpVariable :=
  if decide (v ∈ keys) then keys else keys ++ [v].

(** The keys of [prob.variablesDict()], in the order of the dictionary:
    constraint by constraint, each variable at its first occurrence. *)
Definition variablesDict (prob : LpProblem) : list LpVariable :=
  foldl (λ keys c, foldl dict_add keys (lhs c)) [] (constraints prob).

(** [value(v)]. *)
Definition value (prob : LpProblem) (v : LpVariable) : option Z := varValue prob v.

(** A backend (here [PULP_CBC_CMD]) reads the constraints and reports a
    status code and the values it assigns to the variables.  All variables
    are of category [LpBinary], so the values reported are integers. *)
Definition Backend : Type :=
  list LpConstraint → LpStatusCode * (LpVariable → option Z).

(** [prob.solve(backend)]. *)
Definition solve (backend : Backend) (prob : LpProblem) : LpProblem :=
  let '(code, values) := backend (constraints prob) in
  {| constraints := constraints prob; status := code; varValue := values |}.

End pulp.

Import pulp.

(** ** [class Solver] *)

Record Solver : Type := mkSolver {
  prob : LpProblem;
  _all_cells : gmap Key LpVariable;
  _starting_cells : list Key
}.

(** The 729 variables, one per candidate. *)
Definition _set_decision_variables : gmap Key LpVariable :=
  LpVariable_dicts "Cell"
    (row ← range 0 9; col ← range 0 9; value ← range 1 10; [(row, col, value)]).

(** The four families of rules, each added to the problem in turn. *)
Definition _set_fixed_constraints (all_cells : gmap Key LpVariable)
    (prob : LpProblem) : Result LpProblem :=
  prob ←! foldM (λ prob '(row, col),
              vars ←! mapM (λ value, getitem all_cells (row, col, value))
                           (range 1 10) ;;
              ret (add_constraint prob (eq_const (lpSum vars) 1)))
            (row ← range 0 9; col ← range 0 9; [(row, col)]) prob ;;
  prob ←! foldM (λ prob '(value, row),
              vars ←! mapM (λ col, getitem all_cells (row, col, value))
                           (range 0 9) ;;
              ret (add_constraint prob (eq_const (lpSum vars) 1)))
            (value ← range 1 10; row ← range 0 9; [(value, row)]) prob ;;
  prob ←! foldM (λ prob '(value, col),
              vars ←! mapM (λ row, getitem all_cells (row, col, value))
                           (range 0 9) ;;
              ret (add_constraint prob (eq_const (lpSum vars) 1)))
            (value ← range 1 10; col ← range 0 9; [(value, col)]) prob ;;
  foldM (λ prob '(value, row_offset, col_offset),
           vars ←! mapM (λ '(row, col),
                           getitem all_cells
                             (row + row_offset, col + col_offset, value))
                        (row ← range 0 3; col ← range 0 3; [(row, col)]) ;;
           ret (add_constraint prob (eq_const (lpSum vars) 1)))
        (value ← range 1 10; row_offset ← [0; 3; 6]; col_offset ← [0; 3; 6];
         [(value, row_offset, col_offset)]) prob.

(** The given cells: a positive value forces its candidate to 1, anything
    else is passed over. *)
Definition _set_constraint_starting_cells (all_cells : gmap Key LpVariable)
    (prob : LpProblem) (starting_cells : list Key) : Result LpProblem :=
  foldM (λ prob '(row, col, val),
           if 0 <? val
           then v ←! getitem all_cells (row, col, val) ;;
                ret (add_constraint prob (eq_const [v] 1))
           else ret prob)
        starting_cells prob.

Definition __init__ (starting_cells : list Key) : Result Solver :=
  let prob := new_problem in
  let all_cells := _set_decision_variables in
  prob ←! _set_fixed_constraints all_cells prob ;;
  prob ←! _set_constraint_starting_cells all_cells prob starting_cells ;;
  ret {| prob := prob; _all_cells := all_cells; _starting_cells := starting_cells |}.

(** A call of [Solver] with positional arguments [args]: [__init__] has one
    required parameter besides [self] and no default for it. *)
Definition new_Solver (args : list (list Key)) : Result Solver :=
  match args with
  | [starting_cells] => __init__ starting_cells
  | _ => raise TypeError
  end.

(** [solve_puzzle]: run the backend, return the name of its status. *)
Definition solve_puzzle (backend : Backend) (self : Solver) : string * Solver :=
  let prob := solve backend (prob self) in
  (LpStatus (status prob),
   {| prob := prob;
      _all_cells := _all_cells self;
      _starting_cells := _starting_cells self |}).

(** [parse_solution]: one triple per variable whose value is 1, read back from
    the digits of the variable's name. *)
Definition parse_solution (self : Solver) : Result (list Key) :=
  foldM (λ solution k,
           if decide (value (prob self) k = Some 1)
           then match findall_digits k with
                | [row; col; val] =>
                    ret (solution ++
                         [(int_of_digits row, int_of_digits col, int_of_digits val)])
                | _ => raise ValueError
                end
           else ret solution)
        (variablesDict (prob self)) [].

(** ** The contract of a 0/1 feasibility backend *)

(** The value of a sum of variables under an assignment. *)
Definition sumZ {A} (f : A → Z) (l : list A) : Z := foldr (λ a acc, f a + acc) 0 l.

(** [x] gives every variable of the list a value in {0, 1} and makes every
    constraint of the problem true. *)
Definition satisfies (x : LpVariable → Z) (vars : list LpVariable)
    (cs : list LpConstraint) : Prop :=
  Forall (λ v, 0 ≤ x v ≤ 1) vars ∧ Forall (λ c, sumZ x (lhs c) = rhs c) cs.

Definition feasible (p : LpProblem) : Prop :=
  ∃ x, satisfies x (variablesDict p) (constraints p).

(** What an exact backend promises on the problem [p]: a reported
    [Optimal] comes with 0/1 values that satisfy every constraint, a reported
    [Infeasible] is true, and the run ends with one of the two. *)
Record exact_on (backend : Backend) (p : LpProblem) : Prop := {
  optimal_sound :
    (backend (constraints p)).1 = LpStatusOptimal →
    ∃ x, Forall (λ v, (backend (constraints p)).2 v = Some (x v)) (variablesDict p)
         ∧ satisfies x (variablesDict p) (constraints p);
  infeasible_sound :
    (backend (constraints p)).1 = LpStatusInfeasible → ¬ feasible p;
  terminates :
    (backend (constraints p)).1 = LpStatusOptimal
    ∨ (backend (constraints p)).1 = LpStatusInfeasible
}.

(** The part of the contract that the reading of a solution relies on. *)
Definition optimal_sound_on (backend : Backend) (p : LpProblem) : Prop :=
  (backend (constraints p)).1 = LpStatusOptimal →
  ∃ x, Forall (λ v, (backend (constraints p)).2 v = Some (x v)) (variablesDict p)
       ∧ satisfies x (variablesDict p) (constraints p).

(** ** The problem that construction builds, in closed form *)

Definition var (k : Key) : LpVariable := cell_name "Cell" k.

Definition candidates : list Key :=
  row ← range 0 9; col ← range 0 9; value ← range 1 10; [(row, col, value)].

Definition cells : list (Z * Z) := row ← range 0 9; col ← range 0 9; [(row, col)].

(** The candidates that one rule ranges over. *)
Definition cell_group (row col : Z) : list Key :=
  (λ value, (row, col, value)) <$> range 1 10.
Definition row_group (value row : Z) : list Key :=
  (λ col, (row, col, value)) <$> range 0 9.
Definition col_group (value col : Z) : list Key :=
  (λ row, (row, col, value)) <$> range 0 9.
Definition box_group (value row_offset col_offset : Z) : list Key :=
  row ← range 0 3; col ← range 0 3; [(row + row_offset, col + col_offset, value)].

Definition cell_groups : list (list Key) :=
  row ← range 0 9; col ← range 0 9; [cell_group row col].
Definition row_groups : list (list Key) :=
  value ← range 1 10; row ← range 0 9; [row_group value row].
Definition col_groups : list (list Key) :=
  value ← range 1 10; col ← range 0 9; [col_group value col].
Definition box_groups : list (list Key) :=
  value ← range 1 10; row_offset ← [0; 3; 6]; col_offset ← [0; 3; 6];
  [box_group value row_offset col_offset].

Definition groups : list (list Key) :=
  cell_groups ++ row_groups ++ col_groups ++ box_groups.

Definition group_constraint (g : list Key) : LpConstraint :=
  eq_const (var <$> g) 1.

Definition fixed_constraints : list LpConstraint := group_constraint <$> groups.

(** A given cell that adds a constraint. *)
Definition forced (k : Key) : Prop := 0 < k.2.

Definition forcing_constraints (starting_cells : list Key) : list LpConstraint :=
  (λ k, eq_const [var k] 1) <$> filter forced starting_cells.

(** A candidate key: the keys of [_all_cells]. *)
Definition is_candidate (k : Key) : Prop :=
  (0 ≤ k.1.1 ≤ 8 ∧ 0 ≤ k.1.2 ≤ 8) ∧ 1 ≤ k.2 ≤ 9.

(** A given cell as the data model has it: coordinates in [0,8], value in
    [0,9]. *)
Definition well_formed (k : Key) : Prop :=
  (0 ≤ k.1.1 ≤ 8 ∧ 0 ≤ k.1.2 ≤ 8) ∧ 0 ≤ k.2 ≤ 9.

(** A given cell on which the lookup of its candidate fails. *)
Definition rejected (k : Key) : Prop := forced k ∧ ¬ is_candidate k.

Definition add_constraints (p : LpProblem) (cs : list LpConstraint) : LpProblem :=
  {| constraints := constraints p ++ cs; status := status p; varValue := varValue p |}.

(** The solver that [__init__] returns when no lookup fails. *)
Definition built (starting_cells : list Key) : Solver :=
  {| prob := add_constraints new_problem
               (fixed_constraints ++ forcing_constraints starting_cells);
     _all_cells := _set_decision_variables;
     _starting_cells := starting_cells |}.

(** ** The rules of the game, as the data model words them *)

(** Exactly one element of [l] has the property [P]. *)
Definition exactly_one {A} (P : A → Prop) `{!∀ a, Decision (P a)} (l : list A) : Prop :=
  length (filter P l) = 1%nat.

(** The cells of the box in block row [br] and block column [bc]. *)
Definition box_cells (br bc : Z) : list (Z * Z) :=
  filter (λ rc, rc.1 `div` 3 = br ∧ rc.2 `div` 3 = bc) cells.

(** A truth assignment to the candidates that obeys the four families of
    uniqueness rules and makes the candidate of every given cell with a
    nonzero value true. *)
Record satisfying_assignment (a : Key → bool) (starting_cells : list Key) : Prop := {
  cell_unique : ∀ row col, row ∈ range 0 9 → col ∈ range 0 9 →
    exactly_one (λ k, a k = true) ((λ value, (row, col, value)) <$> range 1 10);
  row_unique : ∀ row value, row ∈ range 0 9 → value ∈ range 1 10 →
    exactly_one (λ k, a k = true) ((λ col, (row, col, value)) <$> range 0 9);
  col_unique : ∀ col value, col ∈ range 0 9 → value ∈ range 1 10 →
    exactly_one (λ k, a k = true) ((λ row, (row, col, value)) <$> range 0 9);
  box_unique : ∀ br bc value, br ∈ range 0 3 → bc ∈ range 0 3 → value ∈ range 1 10 →
    exactly_one (λ k, a k = true) ((λ rc, (rc.1, rc.2, value)) <$> box_cells br bc);
  givens_true : ∀ k, k ∈ starting_cells → k.2 ≠ 0 → a k = true
}.

(** ** Solved grids *)

Definition row_values (sol : list Key) (row : Z) : list Z :=
  snd <$> filter (λ k, k.1.1 = row) sol.
Definition col_values (sol : list Key) (col : Z) : list Z :=
  snd <$> filter (λ k, k.1.2 = col) sol.
Definition box_values (sol : list Key) (br bc : Z) : list Z :=
  snd <$> filter (λ k, k.1.1 `div` 3 = br ∧ k.1.2 `div` 3 = bc) sol.

(** A list of 81 triples that covers every cell once, with values in [1,9],
    and whose rows, columns and boxes each hold a permutation of 1..9. *)
Record valid_solution (sol : list Key) : Prop := {
  sol_length : length sol = 81%nat;
  sol_cover : fst <$> sol ≡ₚ cells;
  sol_values : Forall (λ k, 1 ≤ k.2 ≤ 9) sol;
  sol_rows : ∀ row, row ∈ range 0 9 → row_values sol row ≡ₚ range 1 10;
  sol_cols : ∀ col, col ∈ range 0 9 → col_values sol col ≡ₚ range 1 10;
  sol_boxes : ∀ br bc, br ∈ range 0 3 → bc ∈ range 0 3 →
    box_values sol br bc ≡ₚ range 1 10
}.

(** Two given cells that clash: different cells of one row, one column or
    one box. *)
Definition same_unit (k1 k2 : Key) : Prop :=
  k1.1.1 = k2.1.1 ∨ k1.1.2 = k2.1.2
  ∨ (k1.1.1 `div` 3 = k2.1.1 `div` 3 ∧ k1.1.2 `div` 3 = k2.1.2 `div` 3).

(** ** The fixtures of [tests/test_sudoku.py] *)

Definition hard_puzzle : list Key :=
  [(0,0,5); (1,0,6); (3,0,8); (4,0,4); (5,0,7); (0,1,3); (2,1,9); (6,1,6);
   (2,2,8); (1,3,1); (4,3,8); (7,3,4); (0,4,7); (1,4,9); (3,4,6); (5,4,2);
   (7,4,1); (8,4,8); (1,5,5); (4,5,3); (7,5,9); (6,6,2); (2,7,6); (6,7,8);
   (8,7,7); (3,8,3); (4,8,1); (5,8,6); (7,8,5)].

Definition hard_puzzle_soln : list Key :=
  [(0,0,5); (0,1,3); (0,2,4); (0,3,6); (0,4,7); (0,5,8); (0,6,9); (0,7,1); (0,8,2);
   (1,0,6); (1,1,7); (1,2,2); (1,3,1); (1,4,9); (1,5,5); (1,6,3); (1,7,4); (1,8,8);
   (2,0,1); (2,1,9); (2,2,8); (2,3,3); (2,4,4); (2,5,2); (2,6,5); (2,7,6); (2,8,7);
   (3,0,8); (3,1,5); (3,2,9); (3,3,7); (3,4,6); (3,5,1); (3,6,4); (3,7,2); (3,8,3);
   (4,0,4); (4,1,2); (4,2,6); (4,3,8); (4,4,5); (4,5,3); (4,6,7); (4,7,9); (4,8,1);
   (5,0,7); (5,1,1); (5,2,3); (5,3,9); (5,4,2); (5,5,4); (5,6,8); (5,7,5); (5,8,6);
   (6,0,9); (6,1,6); (6,2,1); (6,3,5); (6,4,3); (6,5,7); (6,6,2); (6,7,8); (6,8,4);
   (7,0,2); (7,1,8); (7,2,7); (7,3,4); (7,4,1); (7,5,9); (7,6,6); (7,7,3); (7,8,5);
   (8,0,3); (8,1,4); (8,2,5); (8,3,2); (8,4,8); (8,5,6); (8,6,1); (8,7,7); (8,8,9)].

Definition invalid_puzzle : list Key := [(0,0,1); (0,1,1)].

(** Two givens for the cell (0,0) with different values. *)
Definition double_given : list Key := [(0, 0, 1); (0, 0, 2)].

(** The 0/1 values that mark the candidates of the list [sol]. *)
Definition marks (sol : list Key) (v : LpVariable) : Z :=
  if decide (v ∈ var <$> sol) then 1 else 0.

(** A backend that answers [Optimal] with the candidates of [sol] set to 1,
    and one that answers [Infeasible] without values. *)
Definition answering (sol : list Key) : Backend :=
  λ _, (LpStatusOptimal, λ v, Some (marks sol v)).
Definition refusing : Backend := λ _, (LpStatusInfeasible, λ _, None).

(** ** [write_solution_to_text] *)

(** The newline character. *)
Definition nl : string := String "010"%char EmptyString.

(** [write_solution_to_text]: the strings written to the file, in the order
    of the calls of [f.write]. *)
Definition write_solution_to_text (self : Solver) : Result (list string) :=
  f ←! foldM (λ f r,
          let f := if decide (r ∈ [0; 3; 6])
                   then f ++ ["+-------+-------+-------+" +:+ nl] else f in
          foldM (λ f c,
                   foldM (λ f v,
                            cell ←! getitem (_all_cells self) (r, c, v) ;;
                            if decide (value (prob self) cell = Some 1)
                            then let f := if decide (c ∈ [0; 3; 6])
                                          then f ++ ["| "] else f in
                                 let f := f ++ [pretty v +:+ " "] in
                                 let f := if decide (c = 8)
                                          then f ++ ["|" +:+ nl] else f in
                                 ret f
                            else ret f)
                         (range 1 10) f)
                (range 0 9) f)
        (range 0 9) [] ;;
  ret (f ++ ["+-------+-------+-------+"]).

(** The content of a file after the given writes. *)
Definition file_content (writes : list string) : string :=
  foldr String.append "" writes.

(** What the loops write for one candidate, one row, and in all, when [P]
    tells the candidates whose variable has the value 1. *)
Definition candidate_writes (P : Key → Prop) `{!∀ k, Decision (P k)}
    (r c v : Z) : list string :=
  if decide (P (r, c, v))
  then (if decide (c ∈ [0; 3; 6]) then ["| "] else [])
       ++ [pretty v +:+ " "]
       ++ (if decide (c = 8) then ["|" +:+ nl] else [])
  else [].

Definition row_writes (P : Key → Prop) `{!∀ k, Decision (P k)} (r : Z) : list string :=
  (if decide (r ∈ [0; 3; 6]) then ["+-------+-------+-------+" +:+ nl] else [])
  ++ (c ← range 0 9; v ← range 1 10; candidate_writes P r c v).

Definition all_writes (P : Key → Prop) `{!∀ k, Decision (P k)} : list string :=
  (r ← range 0 9; row_writes P r) ++ ["+-------+-------+-------+"].

(** A string that ends with a character other than a digit. *)
Definition clean (p : string) : Prop :=
  ∃ q a, p = q +:+ String a "" ∧ is_digit a = false.

(** The numbers read from the digits of one string. *)
Definition numbers_in (p : string) : list Z := int_of_digits <$> findall_digits p.

(** One value followed by a blank. *)
Definition show_value (v : Z) : string := pretty v +:+ " ".

(** The picture of a row of nine values, of a band of three rows, and of
    the 81 values of a grid in row-major order: a separator line above every
    band and at the end, a bar before every third value and at the end of
    every row. *)
Definition row_text (vs : list Z) : list string :=
  ["| "] ++ (show_value <$> take 3 vs)
  ++ ["| "] ++ (show_value <$> take 3 (drop 3 vs))
  ++ ["| "] ++ (show_value <$> drop 6 vs) ++ ["|" +:+ nl].

Definition band_text (vs : list Z) : list string :=
  ["+-------+-------+-------+" +:+ nl]
  ++ row_text (take 9 vs) ++ row_text (take 9 (drop 9 vs)) ++ row_text (drop 18 vs).

Definition grid_text (vs : list Z) : list string :=
  band_text (take 27 vs) ++ band_text (take 27 (drop 27 vs)) ++ band_text (drop 54 vs)
  ++ ["+-------+-------+-------+"].

(** The value of a cell: the first value whose candidate has the property
    [P]. *)
Definition cell_value (P : Key → Prop) `{!∀ k, Decision (P k)} (r c : Z) : Z :=
  default 0 (head (filter (λ v, P (r, c, v)) (range 1 10))).

(** ** Auxiliary functions of the proofs *)

(** Reading a candidate back from the name of its variable. *)
Definition key_of_name (name : LpVariable) : option Key :=
  match findall_digits name with
  | [row; col; val] => Some (int_of_digits row, int_of_digits col, int_of_digits val)
  | _ => None
  end.

(** The keys of a dictionary after the variables of [cs] were added to
    [keys]. *)
Definition collect (keys : list LpVariable) (cs : list LpConstraint) : list LpVariable :=
  foldl (λ keys c, foldl dict_add keys (lhs c)) keys cs.

(** The 0/1 values of a truth assignment, given to the variables by name. *)
Definition values_of_assignment (a : Key → bool) (v : LpVariable) : Z :=
  match key_of_name v with
  | Some k => if a k then 1 else 0
  | None => 0
  end.

(** ** The terminal interface of [main.py] *)

Module main.

(** What an action of the interface can raise: an exception of the solver,
    a failed lookup of a widget by its id, or an id that does not hold a
    digit where one is read. *)
Inductive UiExn : Type :=
  | SolverError (e : PyExn)
  | NoMatches (selector : string)
  | BadId (id : string).

Definition UiResult (A : Type) : Type := UiExn + A.

Definition ui_bind {A B} (m : UiResult A) (f : A → UiResult B) : UiResult B :=
  match m with
  | inl e => inl e
  | inr a => f a
  end.

Notation "x ←? m ;; k" := (ui_bind m (λ x, k))
  (at level 100, m at next level, right associativity).

Definition of_solver {A} (m : Result A) : UiResult A :=
  match m with
  | inl e => inl (SolverError e)
  | inr a => inr a
  end.

Fixpoint ui_foldM {A S} (f : S → A → UiResult S) (l : list A) (s : S) : UiResult S :=
  match l with
  | [] => inr s
  | a :: l' => s' ←? f s a ;; ui_foldM f l' s'
  end.

Fixpoint ui_mapM {A B} (f : A → UiResult B) (l : list A) : UiResult (list B) :=
  match l with
  | [] => inr []
  | a :: l' => b ←? f a ;; bs ←? ui_mapM f l' ;; inr (b :: bs)
  end.

(** The [output] of a cell: ['x'] for an empty cell, or a number. *)
Inductive Output : Type :=
  | Empty_x
  | Number (n : Z).

(** [str.isdigit]: a string that is not empty and holds digits only. *)
Definition isdigit (s : string) : bool :=
  match s with
  | EmptyString => false
  | _ => forallb is_digit (list_ascii_of_string s)
  end.

(** [Cell.action_clear]. *)
Definition action_clear (output : Output) : Output := Empty_x.


(** A cell widget: its id and its output. *)
Record Cell : Type := mkCell {
  id : string;
  output : Output
}.

(** The id [f'_{row}_{col}'] of a cell and the id [f'_{box_num}'] of a box. *)
Definition cell_id (row col : Z) : string :=
  "_" +:+ pretty row +:+ "_" +:+ pretty col.
Definition box_id (box_num : Z) : string := "_" +:+ pretty box_num.

(** [int] of one character of an id. *)
Definition int_at (s : string) (i : nat) : UiResult Z :=
  match String.get i s with
  | Some a => if is_digit a then inr (Z.of_nat (nat_of_ascii a) - 48) else inl (BadId s)
  | None => inl (BadId s)
  end.

(** [get_cell_row_col]: the characters 1 and 3 of the id, as numbers. *)
Definition get_cell_row_col (cell_id : string) : UiResult (Z * Z) :=
  row ←? int_at cell_id 1 ;;
  col ←? int_at cell_id 3 ;;
  inr (row, col).

(** [Box.compose]: the nine cells of the box, all empty. *)
Definition Box_compose (box_id : string) : UiResult (list Cell) :=
  let digits := String.substring 1 (String.length box_id - 1) box_id in
  if isdigit digits then
    let box_num := int_of_digits digits in
    inr (i ← range 0 9;
         [{| id := cell_id (box_num `div` 3 * 3 + i `div` 3)
                           (box_num `mod` 3 * 3 + i `mod` 3);
             output := Empty_x |}])
  else inl (BadId box_id).

(** The application: its cells in the order of [query(Cell)] (box by box, as
    composed), the id of the focused cell, and the text of the logger. *)
Record SudokuApp : Type := mkApp {
  grid_cells : list Cell;
  focused : string;
  logger : string
}.

(** [SudokuApp.compose]: nine boxes, an empty logger. *)
Definition compose : UiResult (list Cell) :=
  boxes ←? ui_mapM (λ box_num, Box_compose (box_id box_num)) (range 0 9) ;;
  inr (concat boxes).

(** [display_message]; [now] is the time of day as [strftime] gives it. *)
Definition display_message (now : string) (app : SudokuApp) (message : string)
    : SudokuApp :=
  {| grid_cells := grid_cells app; focused := focused app;
     logger := now +:+ ": " +:+ message |}.

(** [action_clear_all]. *)
Definition action_clear_all (now : string) (app : SudokuApp) : SudokuApp :=
  display_message now
    {| grid_cells := (λ cell, {| id := id cell; output := action_clear (output cell) |})
                       <$> grid_cells app;
       focused := focused app; logger := logger app |}
    "Cleared grid".







(** [parse_grid]: one triple per cell, 0 for an empty cell. *)
Definition parse_grid (app : SudokuApp) : UiResult (list Key) :=
  ui_foldM (λ grid cell,
              rc ←? get_cell_row_col (id cell) ;;
              let '(row, col) := rc in
              let val := match output cell with
                         | Empty_x => 0
                         | Number n => n
                         end in
              inr (grid ++ [(row, col, val)]))
           (grid_cells app) [].

(** [get_solution]: the solution when the status is "Optimal", [None]
    otherwise. *)
Definition get_solution (backend : Backend) (puzzle : list Key)
    : UiResult (option (list Key)) :=
  solver ←? of_solver (new_Solver [puzzle]) ;;
  let '(status, solver) := solve_puzzle backend solver in
  if decide (status = "Optimal"%string)
  then solution ←? of_solver (parse_solution solver) ;; inr (Some solution)
  else inr None.

(** [query_one('#' + id).output = val]. *)
Definition set_output (app : SudokuApp) (cid : string) (val : Z) : UiResult SudokuApp :=
  match list_find (λ cell, id cell = cid) (grid_cells app) with
  | Some (i, cell) =>
      inr {| grid_cells := <[i := {| id := id cell; output := Number val |}]>
                             (grid_cells app);
             focused := focused app; logger := logger app |}
  | None => inl (NoMatches ("#" +:+ cid))
  end.

(** [display_solution]: nothing to show for [None] or an empty list. *)
Definition display_solution (now : string) (app : SudokuApp)
    (solution : option (list Key)) : UiResult SudokuApp :=
  match solution with
  | None | Some [] => inr (display_message now app "Solution not found")
  | Some solution =>
      app ←? ui_foldM (λ app '(row, col, val), set_output app (cell_id row col) val)
                      solution app ;;
      inr (display_message now app "Solution found")
  end.

(** [action_solve]. *)
Definition action_solve (backend : Backend) (now : string) (app : SudokuApp)
    : UiResult SudokuApp :=
  parsed_grid ←? parse_grid app ;;
  solution ←? get_solution backend parsed_grid ;;
  display_solution now app solution.

(** The cells in the order in which [compose] yields them, box by box. *)
Definition dom_cells : list (Z * Z) :=
  box_num ← range 0 9; i ← range 0 9;
  [(box_num `div` 3 * 3 + i `div` 3, box_num `mod` 3 * 3 + i `mod` 3)].

(** An output that a cell can show: empty, or a number of 1..9. *)
Definition valid_output (o : Output) : Prop :=
  match o with
  | Empty_x => True
  | Number n => 1 ≤ n ≤ 9
  end.

(** The value that [parse_grid] reads from an output. *)
Definition output_value (o : Output) : Z :=
  match o with
  | Empty_x => 0
  | Number n => n
  end.

(** An application whose cells are the 81 composed cells, each with a valid
    output, and whose focus is on one of them. *)
Record app_ok (app : SudokuApp) : Prop := {
  ok_ids : id <$> grid_cells app = (λ rc, cell_id rc.1 rc.2) <$> dom_cells;
  ok_outputs : Forall (λ cell, valid_output (output cell)) (grid_cells app);
  ok_focus : ∃ rc, rc ∈ cells ∧ focused app = cell_id rc.1 rc.2
}.

(** The application as composed, with the focus on a cell of the grid. *)
Definition fresh_app (row col : Z) : SudokuApp :=
  {| grid_cells := (λ rc, {| id := cell_id rc.1 rc.2; output := Empty_x |}) <$> dom_cells;
     focused := cell_id row col; logger := "" |}.

(** The triple that [parse_grid] reads from a cell at the coordinate [rc]. *)
Definition read_cell (rc : Z * Z) (cell : Cell) : Key :=
  (rc.1, rc.2, output_value (output cell)).

(** The candidates to which the backend gives the value 1 on the problem of
    the givens. *)
Definition chosen (backend : Backend) (givens : list Key) : list Key :=
  filter (λ k, (backend (constraints (prob (built givens)))).2 (var k) = Some 1)
         candidates.


End main.

(** * Properties *)

(** ** Construction *)

Lemma bind_inr {A B} (m : Result A) (f : A → Result B) b :
  bind m f = inr b ↔ ∃ a, m = inr a ∧ f a = inr b.
Proof.
  destruct m as [e|a]; simpl; split.
  - intros [=].
  - intros (? & [=] & _).
  - intros H. by exists a.
  - by intros (? & [= ->] & ?).
Qed.

Lemma elem_of_range lo hi k : k ∈ range lo hi ↔ lo ≤ k < hi.
Proof. unfold range. rewrite elem_of_seqZ. lia. Qed.

Lemma elem_of_candidates k : k ∈ candidates ↔ is_candidate k.
Proof.
  destruct k as [[r c] v]. unfold candidates, is_candidate.
  repeat setoid_rewrite list_elem_of_bind.
  setoid_rewrite list_elem_of_singleton.
  setoid_rewrite elem_of_range. simpl.
  split.
  - intros (r' & (c' & (v' & ? & ?) & ?) & ?). simplify_eq. lia.
  - intros ?. exists r. split; [|lia]. exists c. split; [|lia]. exists v. split; [done|lia].
Qed.

Lemma lookup_LpVariable_dicts prefix indices k :
  LpVariable_dicts prefix indices !! k
  = if decide (k ∈ indices) then Some (cell_name prefix k) else None.
Proof.
  unfold LpVariable_dicts.
  assert (∀ d : gmap Key LpVariable,
    foldl (λ d i, <[i := cell_name prefix i]> d) d indices !! k
    = if decide (k ∈ indices) then Some (cell_name prefix k) else d !! k) as H.
  { induction indices as [|i l IH]; intros d; cbn [foldl].
    - rewrite decide_False; [done|]. by intros ?%elem_of_nil.
    - rewrite IH. destruct (decide (k ∈ l)) as [Hl|Hl].
      + rewrite decide_True; [done|]. by apply elem_of_cons; right.
      + destruct (decide (k = i)) as [->|Hne].
        * rewrite decide_True; [|by apply elem_of_cons; left].
          by rewrite lookup_insert_eq.
        * rewrite decide_False; [by rewrite lookup_insert_ne|].
          rewrite elem_of_cons. by intros [?|?]. }
  rewrite H. by case_decide.
Qed.

Lemma getitem_all_cells k :
  getitem _set_decision_variables k
  = if decide (is_candidate k) then inr (var k) else inl (KeyError k).
Proof.
  unfold getitem, _set_decision_variables.
  rewrite lookup_LpVariable_dicts. fold candidates.
  repeat case_decide; try done; rewrite elem_of_candidates in *; done.
Qed.

Lemma _set_fixed_constraints_new :
  _set_fixed_constraints _set_decision_variables new_problem
  = inr (add_constraints new_problem fixed_constraints).
Proof. vm_compute. reflexivity. Qed.

Lemma add_constraints_nil p : add_constraints p [] = p.
Proof. destruct p. unfold add_constraints. simpl. by rewrite app_nil_r. Qed.

Lemma add_constraint_add_constraints p c cs :
  add_constraints (add_constraint p c) cs = add_constraints p (c :: cs).
Proof. unfold add_constraints, add_constraint. simpl. by rewrite <- app_assoc. Qed.

Lemma add_constraints_app p cs1 cs2 :
  add_constraints (add_constraints p cs1) cs2 = add_constraints p (cs1 ++ cs2).
Proof. unfold add_constraints. simpl. by rewrite <- app_assoc. Qed.

(** The loop over the given cells stops at the first rejected cell, and
    otherwise appends the forcing constraints in order. *)
Lemma _set_constraint_starting_cells_eq p starting_cells :
  _set_constraint_starting_cells _set_decision_variables p starting_cells
  = match head (filter rejected starting_cells) with
    | Some k => inl (KeyError k)
    | None => inr (add_constraints p (forcing_constraints starting_cells))
    end.
Proof.
  unfold _set_constraint_starting_cells, forcing_constraints.
  revert p. induction starting_cells as [|[[row col] val] l IH]; intros p.
  - cbn. by rewrite add_constraints_nil.
  - cbn [foldM]. destruct (decide (0 < val)) as [Hv|Hv].
    + assert ((0 <? val) = true) as -> by by apply Z.ltb_lt.
      rewrite (filter_cons_True forced); [|exact Hv].
      rewrite getitem_all_cells.
      destruct (decide (is_candidate (row, col, val))) as [Hc|Hc]; cbn [bind ret].
      * rewrite (filter_cons_False rejected); [|by intros [_ ?]].
        rewrite IH. destruct (head _); [reflexivity|].
        rewrite add_constraint_add_constraints. reflexivity.
      * rewrite (filter_cons_True rejected); [reflexivity|]. by split.
    + assert ((0 <? val) = false) as -> by (apply Z.ltb_ge; lia).
      rewrite (filter_cons_False forced); [|exact Hv].
      rewrite (filter_cons_False rejected); [|by intros [? _]].
      cbn [bind ret]. apply IH.
Qed.

Lemma __init___eq starting_cells :
  __init__ starting_cells
  = match head (filter rejected starting_cells) with
    | Some k => inl (KeyError k)
    | None => inr (built starting_cells)
    end.
Proof.
  unfold __init__. rewrite _set_fixed_constraints_new. cbn [bind].
  rewrite _set_constraint_starting_cells_eq.
  destruct (head _); [reflexivity|]. cbn [bind ret]. unfold built.
  rewrite add_constraints_app. reflexivity.
Qed.

(** ** Sums of 0/1 values *)

Section sums.
Context {A : Type} (f : A → Z).

Lemma sumZ_app l1 l2 : sumZ f (l1 ++ l2) = sumZ f l1 + sumZ f l2.
Proof. unfold sumZ. induction l1 as [|a l1 IH]; cbn [foldr app]; [lia|]. fold (l1 ++ l2). rewrite IH. lia. Qed.

Lemma sumZ_binary_filter l :
  Forall (λ a, 0 ≤ f a ≤ 1) l →
  sumZ f l = Z.of_nat (length (filter (λ a, f a = 1) l)).
Proof.
  unfold sumZ. induction 1 as [|a l Ha _ IH]; [done|].
  cbn [foldr]. rewrite IH. destruct (decide (f a = 1)) as [H1|H1].
  - rewrite filter_cons_True by done. cbn [length]. lia.
  - rewrite filter_cons_False by done. lia.
Qed.

Lemma sumZ_one_exactly_one l :
  Forall (λ a, 0 ≤ f a ≤ 1) l → sumZ f l = 1 → exactly_one (λ a, f a = 1) l.
Proof. intros Hb Hs. rewrite sumZ_binary_filter in Hs by done. unfold exactly_one. lia. Qed.

Lemma exactly_one_sumZ l :
  Forall (λ a, 0 ≤ f a ≤ 1) l → exactly_one (λ a, f a = 1) l → sumZ f l = 1.
Proof. intros Hb Hs. rewrite sumZ_binary_filter by done. unfold exactly_one in Hs. lia. Qed.
End sums.

Lemma sumZ_fmap {A B} (g : A → B) (f : B → Z) l : sumZ f (g <$> l) = sumZ (f ∘ g) l.
Proof. unfold sumZ. induction l as [|a l IH]; [done|]. cbn [fmap list_fmap foldr]. fold (g <$> l). by rewrite IH. Qed.

(** ** Exactly one *)

Section exactly_one.
Context {A : Type} (P : A → Prop) `{!∀ a, Decision (P a)}.

Lemma exactly_one_inv l :
  exactly_one P l → ∃ a, filter P l = [a] ∧ a ∈ l ∧ P a.
Proof.
  unfold exactly_one. intros Hl.
  destruct (filter P l) as [|a [|b l']] eqn:Hf; try discriminate.
  exists a. split; [done|].
  assert (a ∈ filter P l) as Ha by (rewrite Hf; apply list_elem_of_singleton; done).
  apply list_elem_of_filter in Ha. destruct Ha; done.
Qed.

Lemma exactly_one_unique l a b :
  exactly_one P l → a ∈ l → b ∈ l → P a → P b → a = b.
Proof.
  intros (c & Hf & _)%exactly_one_inv Ha Hb HPa HPb.
  assert (a ∈ filter P l) as Ha' by (apply list_elem_of_filter; done).
  assert (b ∈ filter P l) as Hb' by (apply list_elem_of_filter; done).
  rewrite Hf in Ha', Hb'. apply list_elem_of_singleton in Ha', Hb'. congruence.
Qed.

Lemma exactly_one_intro l a :
  NoDup l → a ∈ l → P a → (∀ b, b ∈ l → P b → b = a) → exactly_one P l.
Proof.
  intros Hnd Ha HPa Huniq. unfold exactly_one.
  assert (filter P l ≡ₚ [a]) as ->; [|done].
  apply NoDup_Permutation; [by apply NoDup_filter|apply NoDup_singleton|].
  intros b. rewrite list_elem_of_filter, list_elem_of_singleton. split.
  - intros [? ?]. by apply Huniq.
  - by intros ->.
Qed.
End exactly_one.

Lemma exactly_one_iff {A} (P Q : A → Prop) `{!∀ a, Decision (P a)} `{!∀ a, Decision (Q a)} l :
  (∀ a, a ∈ l → P a ↔ Q a) → exactly_one P l → exactly_one Q l.
Proof.
  unfold exactly_one. intros Hiff <-. f_equal.
  induction l as [|a l IH]; [done|].
  assert (filter Q l = filter P l) as IH'.
  { apply IH. intros b Hb. apply Hiff. by right. }
  destruct (decide (P a)) as [HP|HP].
  - rewrite (filter_cons_True P), (filter_cons_True Q), IH'; [done| |done]. apply Hiff; [by left|done].
  - rewrite (filter_cons_False P), (filter_cons_False Q), IH'; [done| |done]. intros HQ. apply HP, Hiff; [by left|done].
Qed.

Lemma filter_bind {A B} (P : B → Prop) `{!∀ b, Decision (P b)} (F : A → list B) l :
  filter P (l ≫= F) = l ≫= (λ a, filter P (F a)).
Proof.
  induction l as [|a l IH]; [done|].
  rewrite !bind_cons, filter_app, IH. done.
Qed.

Lemma fmap_bind_singletons {A B} (g : B → A) (F : A → list B) l :
  (∀ a, a ∈ l → g <$> F a = [a]) → g <$> (l ≫= F) = l.
Proof.
  induction l as [|a l IH]; intros Hs; [done|].
  rewrite bind_cons, fmap_app, Hs, IH; [done| |by left].
  intros b Hb. apply Hs. by right.
Qed.

Lemma length_filter_fmap {A B} (g : A → B) (P : B → Prop) `{!∀ b, Decision (P b)} l :
  length (filter P (g <$> l)) = length (filter (λ a, P (g a)) l).
Proof.
  induction l as [|a l IH]; [done|]. rewrite fmap_cons.
  destruct (decide (P (g a))).
  - rewrite (filter_cons_True P), (filter_cons_True (λ a, P (g a))) by done. cbn [length]. by rewrite IH.
  - rewrite (filter_cons_False P), (filter_cons_False (λ a, P (g a))) by done. done.
Qed.

Lemma NoDup_fmap_inj_on {A B} (g : A → B) l a b :
  NoDup (g <$> l) → a ∈ l → b ∈ l → g a = g b → a = b.
Proof.
  induction l as [|c l IH]; [by intros _ ?%elem_of_nil|].
  rewrite fmap_cons, NoDup_cons, !elem_of_cons.
  intros [Hc Hnd] [->|Ha] [->|Hb] Heq; try done.
  - exfalso. apply Hc. rewrite Heq. by apply list_elem_of_fmap_2.
  - exfalso. apply Hc. rewrite <- Heq. by apply list_elem_of_fmap_2.
  - by apply IH.
Qed.

(** A list without repeats that is contained in a list no longer than itself
    is a permutation of it. *)
Lemma NoDup_incl_length_Permutation {A} (l k : list A) :
  NoDup l → (∀ a, a ∈ l → a ∈ k) → (length k ≤ length l)%nat → l ≡ₚ k.
Proof. intros Hnd Hin Hlen. apply submseteq_length_Permutation; [by apply NoDup_submseteq|done]. Qed.

Lemma Permutation_fmap_eq {A B} `{!EqDecision B} (g : A → B) (l k : list A) :
  l ≡ₚ k → NoDup (g <$> l) → g <$> l = g <$> k → l = k.
Proof.
  intros Hp Hnd Heq. apply list_eq. intros i.
  assert ((g <$> l) !! i = (g <$> k) !! i) as Hi by by rewrite Heq.
  rewrite !list_lookup_fmap in Hi.
  destruct (l !! i) as [a|] eqn:Ha, (k !! i) as [b|] eqn:Hb; try done.
  f_equal. injection Hi as Hi.
  apply (NoDup_fmap_inj_on g l); [done|by eapply list_elem_of_lookup_2| |done].
  rewrite Hp. by eapply list_elem_of_lookup_2.
Qed.

(** ** The candidates and their variables *)

Lemma candidates_by_cell : candidates = cells ≫= (λ rc, cell_group rc.1 rc.2).
Proof. vm_compute. reflexivity. Qed.

Lemma groups_sound :
  Forall (λ g, NoDup g ∧ Forall is_candidate g) groups.
Proof. apply (bool_decide_unpack _). vm_compute. exact I. Qed.

Lemma NoDup_cells : NoDup cells.
Proof. apply (bool_decide_unpack _). vm_compute. exact I. Qed.

Lemma NoDup_candidates : NoDup candidates.
Proof. apply (bool_decide_unpack _). vm_compute. exact I. Qed.

Lemma key_of_name_candidates :
  Forall (λ k, key_of_name (var k) = Some k) candidates.
Proof. apply (bool_decide_unpack _). vm_compute. exact I. Qed.

Lemma var_inj_candidates k1 k2 :
  k1 ∈ candidates → k2 ∈ candidates → var k1 = var k2 → k1 = k2.
Proof.
  intros H1 H2 Heq.
  pose proof (proj1 (Forall_forall _ _) key_of_name_candidates) as Hr.
  apply Hr in H1, H2. rewrite Heq in H1. congruence.
Qed.

Lemma NoDup_var_candidates : NoDup (var <$> candidates).
Proof. apply NoDup_fmap_2_strong; [apply var_inj_candidates|apply NoDup_candidates]. Qed.

(** *** The keys of [variablesDict] *)

Lemma foldl_dict_add_fresh keys vs :
  NoDup (keys ++ vs) → foldl dict_add keys vs = keys ++ vs.
Proof.
  revert keys. induction vs as [|v vs IH]; intros keys Hnd; cbn [foldl].
  - by rewrite app_nil_r.
  - unfold dict_add at 2. rewrite decide_False.
    + rewrite IH; rewrite <- app_assoc; done.
    + apply NoDup_app in Hnd as (_ & Hd & _). intros Hin. apply (Hd v Hin). by left.
Qed.

Lemma foldl_dict_add_known keys vs :
  (∀ v, v ∈ vs → v ∈ keys) → foldl dict_add keys vs = keys.
Proof.
  induction vs as [|v vs IH]; intros Hin; cbn [foldl]; [done|].
  unfold dict_add at 2. rewrite decide_True by (apply Hin; by left).
  apply IH. intros w Hw. apply Hin. by right.
Qed.

Lemma collect_fresh keys gs :
  NoDup (keys ++ (var <$> concat gs)) →
  collect keys (group_constraint <$> gs) = keys ++ (var <$> concat gs).
Proof.
  unfold collect. revert keys. induction gs as [|g gs IH]; intros keys Hnd.
  - cbn. by rewrite app_nil_r.
  - rewrite fmap_cons. cbn [foldl concat]. cbn [concat] in Hnd.
    rewrite fmap_app in Hnd. rewrite app_assoc in Hnd.
    unfold group_constraint at 2. cbn [lhs eq_const].
    rewrite foldl_dict_add_fresh.
    + rewrite IH by done. by rewrite fmap_app, app_assoc.
    + apply NoDup_app in Hnd as (Hnd & _). done.
Qed.

Lemma collect_known keys cs :
  (∀ c v, c ∈ cs → v ∈ lhs c → v ∈ keys) → collect keys cs = keys.
Proof.
  unfold collect. induction cs as [|c cs IH]; intros Hin; cbn [foldl]; [done|].
  rewrite foldl_dict_add_known.
  - apply IH. intros c' v Hc. apply Hin. by right.
  - intros v. apply Hin. by left.
Qed.

Lemma collect_app keys cs1 cs2 :
  collect keys (cs1 ++ cs2) = collect (collect keys cs1) cs2.
Proof. apply foldl_app. Qed.

Lemma concat_cell_groups : concat cell_groups = candidates.
Proof. vm_compute. reflexivity. Qed.

Lemma groups_split : groups = cell_groups ++ (row_groups ++ col_groups ++ box_groups).
Proof. reflexivity. Qed.

Lemma elem_of_group_candidate g k : g ∈ groups → k ∈ g → is_candidate k.
Proof.
  intros Hg Hk.
  pose proof (proj1 (Forall_forall _ _) groups_sound g Hg) as [_ Hc].
  by apply (proj1 (Forall_forall _ _) Hc).
Qed.

Lemma variablesDict_fixed :
  collect [] fixed_constraints = var <$> candidates.
Proof.
  unfold fixed_constraints. rewrite groups_split, fmap_app, collect_app.
  rewrite (collect_fresh [] cell_groups).
  2:{ rewrite concat_cell_groups. apply NoDup_var_candidates. }
  rewrite concat_cell_groups. cbn [app].
  apply collect_known. intros c v (g & -> & Hg)%list_elem_of_fmap Hv.
  cbn [lhs group_constraint eq_const] in Hv.
  apply list_elem_of_fmap in Hv as (k & -> & Hk).
  apply list_elem_of_fmap_2, elem_of_candidates.
  apply (elem_of_group_candidate g); [|done].
  rewrite groups_split. apply elem_of_app. by right.
Qed.

Lemma variablesDict_built starting_cells :
  Forall (λ k, ¬ rejected k) starting_cells →
  variablesDict (prob (built starting_cells)) = var <$> candidates.
Proof.
  intros Hok. unfold variablesDict, built. cbn [prob add_constraints constraints new_problem app].
  fold (collect [] (fixed_constraints ++ forcing_constraints starting_cells)).
  rewrite collect_app, variablesDict_fixed.
  apply collect_known. intros c v Hc Hv.
  unfold forcing_constraints in Hc.
  apply list_elem_of_fmap in Hc as (k & -> & Hk).
  apply list_elem_of_filter in Hk as [Hf Hk].
  cbn [lhs eq_const] in Hv. apply list_elem_of_singleton in Hv as ->.
  apply list_elem_of_fmap_2, elem_of_candidates.
  destruct (decide (is_candidate k)) as [|Hn]; [done|].
  exfalso. apply (proj1 (Forall_forall _ _) Hok k Hk). by split.
Qed.

(** ** Solving and reading the solution *)

Lemma LpStatus_Optimal code : LpStatus code = "Optimal"%string ↔ code = LpStatusOptimal.
Proof. split; [by destruct code|by intros ->]. Qed.

Lemma LpStatus_Infeasible code : LpStatus code = "Infeasible"%string ↔ code = LpStatusInfeasible.
Proof. split; [by destruct code|by intros ->]. Qed.

Lemma solve_puzzle_status backend s :
  (solve_puzzle backend s).1 = LpStatus (backend (constraints (prob s))).1.
Proof. unfold solve_puzzle, solve. by destruct (backend _). Qed.

Lemma solve_puzzle_constraints backend s :
  constraints (prob (solve_puzzle backend s).2) = constraints (prob s).
Proof. unfold solve_puzzle, solve. by destruct (backend _). Qed.

Lemma solve_puzzle_values backend s :
  varValue (prob (solve_puzzle backend s).2) = (backend (constraints (prob s))).2.
Proof. unfold solve_puzzle, solve. by destruct (backend _). Qed.

Lemma variablesDict_solve_puzzle backend s :
  variablesDict (prob (solve_puzzle backend s).2) = variablesDict (prob s).
Proof. unfold variablesDict. by rewrite solve_puzzle_constraints. Qed.

Lemma parse_loop (val : LpVariable → option Z) ks acc :
  Forall (λ k, key_of_name (var k) = Some k) ks →
  foldM (λ solution k,
           if decide (val k = Some 1)
           then match findall_digits k with
                | [row; col; v] =>
                    ret (solution ++
                         [(int_of_digits row, int_of_digits col, int_of_digits v)])
                | _ => raise ValueError
                end
           else ret solution)
        (var <$> ks) acc
  = inr (acc ++ filter (λ k, val (var k) = Some 1) ks).
Proof.
  intros Hks. revert acc. induction Hks as [|k ks Hk _ IH]; intros acc.
  - cbn. by rewrite app_nil_r.
  - rewrite fmap_cons. cbn [foldM]. destruct (decide (val (var k) = Some 1)) as [H1|H1].
    + rewrite (filter_cons_True (λ k, val (var k) = Some 1)) by done.
      unfold key_of_name in Hk.
      destruct (findall_digits (var k)) as [|a [|b [|c [|? ?]]]]; try discriminate.
      injection Hk as <-. cbn [bind ret]. rewrite IH. by rewrite <- app_assoc.
    + rewrite (filter_cons_False (λ k, val (var k) = Some 1)) by done.
      cbn [bind ret]. apply IH.
Qed.

(** Reading the solution never fails on a problem whose variables are those
    of the candidates: it lists the candidates whose value is 1. *)
Lemma parse_solution_eq s :
  variablesDict (prob s) = var <$> candidates →
  parse_solution s
  = inr (filter (λ k, varValue (prob s) (var k) = Some 1) candidates).
Proof.
  intros Hv. unfold parse_solution, value. rewrite Hv.
  apply (parse_loop (varValue (prob s)) candidates []), key_of_name_candidates.
Qed.

(** ** Membership of the rules in the problem *)

Lemma elem_of_offsets o : o ∈ [0; 3; 6] ↔ o = 0 ∨ o = 3 ∨ o = 6.
Proof. rewrite !elem_of_cons, elem_of_nil. tauto. Qed.

Lemma cell_group_in row col :
  row ∈ range 0 9 → col ∈ range 0 9 → cell_group row col ∈ groups.
Proof.
  intros Hr Hc. unfold groups. apply elem_of_app. left.
  unfold cell_groups. apply list_elem_of_bind. exists row. split; [|done].
  apply list_elem_of_bind. exists col. split; [|done]. by apply list_elem_of_singleton.
Qed.

Lemma row_group_in value row :
  value ∈ range 1 10 → row ∈ range 0 9 → row_group value row ∈ groups.
Proof.
  intros Hv Hr. unfold groups. rewrite !elem_of_app. right. left.
  unfold row_groups. apply list_elem_of_bind. exists value. split; [|done].
  apply list_elem_of_bind. exists row. split; [|done]. by apply list_elem_of_singleton.
Qed.

Lemma col_group_in value col :
  value ∈ range 1 10 → col ∈ range 0 9 → col_group value col ∈ groups.
Proof.
  intros Hv Hr. unfold groups. rewrite !elem_of_app. right. right. left.
  unfold col_groups. apply list_elem_of_bind. exists value. split; [|done].
  apply list_elem_of_bind. exists col. split; [|done]. by apply list_elem_of_singleton.
Qed.

Lemma box_group_in value br bc :
  value ∈ range 1 10 → br ∈ range 0 3 → bc ∈ range 0 3 →
  box_group value (3 * br) (3 * bc) ∈ groups.
Proof.
  intros Hv Hr Hc. unfold groups. rewrite !elem_of_app. right. right. right.
  unfold box_groups. apply list_elem_of_bind. exists value. split; [|done].
  apply list_elem_of_bind. exists (3 * br). split; [|apply elem_of_offsets; apply elem_of_range in Hr; lia].
  apply list_elem_of_bind. exists (3 * bc). split; [|apply elem_of_offsets; apply elem_of_range in Hc; lia].
  by apply list_elem_of_singleton.
Qed.

(** ** What a satisfying assignment of the built problem says *)

Section built_problem.
Context (x : LpVariable → Z) (starting_cells : list Key).
Hypothesis Hsat :
  satisfies x (var <$> candidates)
    (fixed_constraints ++ forcing_constraints starting_cells).

Lemma sat_binary k : is_candidate k → 0 ≤ x (var k) ≤ 1.
Proof.
  intros Hk. destruct Hsat as [Hb _].
  apply (proj1 (Forall_forall _ _) Hb), list_elem_of_fmap_2, elem_of_candidates, Hk.
Qed.

Lemma sat_group g : g ∈ groups → exactly_one (λ k, x (var k) = 1) g.
Proof.
  intros Hg. destruct Hsat as [_ Hc].
  apply Forall_app in Hc as [Hc _].
  assert (sumZ x (var <$> g) = 1) as Hs.
  { apply (proj1 (Forall_forall _ _) Hc (group_constraint g)).
    by apply list_elem_of_fmap_2. }
  rewrite sumZ_fmap in Hs.
  apply (sumZ_one_exactly_one (x ∘ var)); [|done].
  apply Forall_forall. intros k Hk. apply sat_binary.
  by apply (elem_of_group_candidate g).
Qed.

Lemma sat_given k : k ∈ starting_cells → forced k → x (var k) = 1.
Proof.
  intros Hk Hf. destruct Hsat as [_ Hc].
  apply Forall_app in Hc as [_ Hc].
  assert (eq_const [var k] 1 ∈ forcing_constraints starting_cells) as Hin.
  { unfold forcing_constraints.
    apply (list_elem_of_fmap_2 (λ k, eq_const [var k] 1)), list_elem_of_filter. done. }
  apply (proj1 (Forall_forall _ _) Hc) in Hin. cbn in Hin. lia.
Qed.
End built_problem.

(** The converse: values that are 0/1 on the candidates, with exactly one 1
    in every group and a 1 at every forced given, satisfy the problem. *)
Lemma satisfies_intro (x : LpVariable → Z) starting_cells :
  (∀ k, is_candidate k → 0 ≤ x (var k) ≤ 1) →
  (∀ g, g ∈ groups → exactly_one (λ k, x (var k) = 1) g) →
  (∀ k, k ∈ starting_cells → forced k → x (var k) = 1) →
  satisfies x (var <$> candidates)
    (fixed_constraints ++ forcing_constraints starting_cells).
Proof.
  intros Hb Hg Hf. split.
  - apply Forall_fmap, Forall_forall. intros k Hk. apply Hb. by apply elem_of_candidates.
  - apply Forall_app. split.
    + apply Forall_fmap, Forall_forall. intros g Hin. cbn [compose lhs rhs group_constraint eq_const].
      rewrite sumZ_fmap. apply (exactly_one_sumZ (x ∘ var)); [|by apply Hg].
      apply Forall_forall. intros k Hk. apply Hb. by apply (elem_of_group_candidate g).
    + apply Forall_fmap, Forall_forall. intros k [Hfk Hk]%list_elem_of_filter.
      cbn. rewrite Hf by done. lia.
Qed.

(** ** From the rules to a solved grid *)

(** Case analysis on a member of a short range. *)
Ltac range_cases H :=
  apply elem_of_range in H;
  match type of H with
  | ?lo ≤ ?r < ?hi =>
      let E := fresh in
      assert (r = lo ∨ r = lo + 1 ∨ r = lo + 2 ∨ r = lo + 3 ∨ r = lo + 4
              ∨ r = lo + 5 ∨ r = lo + 6 ∨ r = lo + 7 ∨ r = lo + 8) as E by lia;
      cbn in E; clear H;
      destruct E as [->|[->|[->|[->|[->|[->|[->|[->| ->]]]]]]]]
  end.

Lemma elem_of_cells rc : rc ∈ cells ↔ rc.1 ∈ range 0 9 ∧ rc.2 ∈ range 0 9.
Proof.
  destruct rc as [r c]. unfold cells. cbn [fst snd].
  setoid_rewrite list_elem_of_bind. setoid_rewrite list_elem_of_bind.
  setoid_rewrite list_elem_of_singleton. split.
  - intros (r' & (c' & ? & ?) & ?). by simplify_eq.
  - intros [? ?]. exists r. split; [|done]. by exists c.
Qed.

Lemma elem_of_cell_group row col k :
  k ∈ cell_group row col ↔ k.1 = (row, col) ∧ k.2 ∈ range 1 10.
Proof.
  unfold cell_group. rewrite list_elem_of_fmap. destruct k as [[r c] v]. cbn. split.
  - intros (v' & ? & ?). by simplify_eq.
  - intros [? ?]. exists v. by simplify_eq.
Qed.

Lemma elem_of_row_group value row k :
  k ∈ row_group value row ↔ k.1.1 = row ∧ k.1.2 ∈ range 0 9 ∧ k.2 = value.
Proof.
  unfold row_group. rewrite list_elem_of_fmap. destruct k as [[r c] v]. cbn. split.
  - intros (c' & ? & ?). by simplify_eq.
  - intros (? & ? & ?). exists c. by simplify_eq.
Qed.

Lemma elem_of_col_group value col k :
  k ∈ col_group value col ↔ k.1.1 ∈ range 0 9 ∧ k.1.2 = col ∧ k.2 = value.
Proof.
  unfold col_group. rewrite list_elem_of_fmap. destruct k as [[r c] v]. cbn. split.
  - intros (r' & ? & ?). by simplify_eq.
  - intros (? & ? & ?). exists r. by simplify_eq.
Qed.

Lemma elem_of_box_group value br bc k :
  br ∈ range 0 3 → bc ∈ range 0 3 →
  k ∈ box_group value (3 * br) (3 * bc)
  ↔ (k.1.1 `div` 3 = br ∧ k.1.2 `div` 3 = bc) ∧ k.2 = value.
Proof.
  intros Hbr Hbc. apply elem_of_range in Hbr, Hbc.
  unfold box_group. destruct k as [[r c] v]. cbn [fst snd].
  setoid_rewrite list_elem_of_bind. setoid_rewrite list_elem_of_bind.
  setoid_rewrite list_elem_of_singleton. setoid_rewrite elem_of_range. split.
  - intros (r' & (c' & ? & ?) & ?). simplify_eq.
    rewrite !(Z.mul_comm 3), !Z.div_add, !Z.div_small by lia. lia.
  - intros [[Hr Hc] ->]. exists (r - 3 * br). split.
    + exists (c - 3 * bc). split; [f_equal; f_equal; lia|].
      subst bc. pose proof (Z.div_mod c 3). pose proof (Z.mod_pos_bound c 3). lia.
    + subst br. pose proof (Z.div_mod r 3). pose proof (Z.mod_pos_bound r 3). lia.
Qed.

Lemma length_range_1_10 : length (range 1 10) = 9%nat.
Proof. reflexivity. Qed.

Lemma length_cells_row row :
  row ∈ range 0 9 → length (filter (λ rc : Z * Z, rc.1 = row) cells) = 9%nat.
Proof. intros H. range_cases H; vm_compute; reflexivity. Qed.

Lemma length_cells_col col :
  col ∈ range 0 9 → length (filter (λ rc : Z * Z, rc.2 = col) cells) = 9%nat.
Proof. intros H. range_cases H; vm_compute; reflexivity. Qed.

Lemma length_box_cells br bc :
  br ∈ range 0 3 → bc ∈ range 0 3 → length (box_cells br bc) = 9%nat.
Proof.
  intros Hr Hc. apply elem_of_range in Hr, Hc.
  assert (br = 0 ∨ br = 1 ∨ br = 2) as [->|[->| ->]] by lia;
  assert (bc = 0 ∨ bc = 1 ∨ bc = 2) as [->|[->| ->]] by lia;
  vm_compute; reflexivity.
Qed.

Section rules_to_grid.
Context (P : Key → Prop) `{!∀ k, Decision (P k)}.
Hypothesis HP : ∀ g, g ∈ groups → exactly_one P g.

Lemma grid_cover : fst <$> (filter P candidates) = cells.
Proof.
  rewrite candidates_by_cell, filter_bind.
  apply fmap_bind_singletons. intros rc [Hr Hc]%elem_of_cells.
  destruct (exactly_one_inv P (cell_group rc.1 rc.2)) as (a & -> & Ha & _).
  { by apply HP, cell_group_in. }
  apply elem_of_cell_group in Ha as [Ha _]. cbn. rewrite Ha. by destruct rc.
Qed.

Lemma grid_length : length (filter P candidates) = 81%nat.
Proof.
  assert (length (fst <$> (filter P candidates)) = 81%nat) as Hl by (rewrite grid_cover; reflexivity).
  by rewrite length_fmap in Hl.
Qed.

Lemma grid_candidates k : k ∈ (filter P candidates) ↔ P k ∧ is_candidate k.
Proof. by rewrite list_elem_of_filter, elem_of_candidates. Qed.

Lemma grid_values : Forall (λ k, 1 ≤ k.2 ≤ 9) (filter P candidates).
Proof. apply Forall_forall. intros k [_ Hk]%grid_candidates. apply Hk. Qed.

(** The values of a unit of at most nine cells in which every value of
    1..9 is found are a permutation of 1..9. *)
Lemma unit_permutation (Q : Key → Prop) `{!∀ k, Decision (Q k)} :
  (length (filter Q (filter P candidates)) ≤ 9)%nat →
  (∀ v, v ∈ range 1 10 → ∃ k, k ∈ (filter P candidates) ∧ Q k ∧ k.2 = v) →
  snd <$> filter Q (filter P candidates) ≡ₚ range 1 10.
Proof.
  intros Hlen Hall. symmetry. apply NoDup_incl_length_Permutation.
  - apply NoDup_seqZ.
  - intros v (k & Hk & HQ & <-)%Hall.
    apply list_elem_of_fmap_2, list_elem_of_filter. done.
  - rewrite length_fmap, length_range_1_10. done.
Qed.

Lemma grid_rows row : row ∈ range 0 9 → row_values (filter P candidates) row ≡ₚ range 1 10.
Proof.
  intros Hr. apply (unit_permutation (λ k, k.1.1 = row)).
  - rewrite <- (length_cells_row row Hr), <- grid_cover.
    rewrite (length_filter_fmap fst (λ rc, rc.1 = row)). done.
  - intros v Hv.
    destruct (exactly_one_inv P (row_group v row)) as (k & _ & Hk & HPk).
    { by apply HP, row_group_in. }
    exists k. split; [|by apply elem_of_row_group in Hk as (? & _ & ?)].
    apply grid_candidates. split; [done|].
    apply (elem_of_group_candidate (row_group v row)); [by apply row_group_in|done].
Qed.

Lemma grid_cols col : col ∈ range 0 9 → col_values (filter P candidates) col ≡ₚ range 1 10.
Proof.
  intros Hc. apply (unit_permutation (λ k, k.1.2 = col)).
  - rewrite <- (length_cells_col col Hc), <- grid_cover.
    rewrite (length_filter_fmap fst (λ rc, rc.2 = col)). done.
  - intros v Hv.
    destruct (exactly_one_inv P (col_group v col)) as (k & _ & Hk & HPk).
    { by apply HP, col_group_in. }
    exists k. split; [|by apply elem_of_col_group in Hk as (_ & ? & ?)].
    apply grid_candidates. split; [done|].
    apply (elem_of_group_candidate (col_group v col)); [by apply col_group_in|done].
Qed.

Lemma grid_boxes br bc :
  br ∈ range 0 3 → bc ∈ range 0 3 → box_values (filter P candidates) br bc ≡ₚ range 1 10.
Proof.
  intros Hr Hc.
  apply (unit_permutation (λ k, k.1.1 `div` 3 = br ∧ k.1.2 `div` 3 = bc)).
  - rewrite <- (length_box_cells br bc Hr Hc). unfold box_cells. rewrite <- grid_cover.
    rewrite (length_filter_fmap fst (λ rc, rc.1 `div` 3 = br ∧ rc.2 `div` 3 = bc)). done.
  - intros v Hv.
    destruct (exactly_one_inv P (box_group v (3 * br) (3 * bc))) as (k & _ & Hk & HPk).
    { by apply HP, box_group_in. }
    exists k. split; [|by apply elem_of_box_group in Hk].
    apply grid_candidates. split; [done|].
    apply (elem_of_group_candidate (box_group v (3 * br) (3 * bc)));
      [by apply box_group_in|done].
Qed.

Lemma rules_give_valid_solution : valid_solution (filter P candidates).
Proof.
  split.
  - apply grid_length.
  - by rewrite grid_cover.
  - apply grid_values.
  - apply grid_rows.
  - apply grid_cols.
  - apply grid_boxes.
Qed.
End rules_to_grid.

(** ** From a solved grid to the rules *)

Lemma groups_inv g :
  g ∈ groups →
  (∃ row col, row ∈ range 0 9 ∧ col ∈ range 0 9 ∧ g = cell_group row col)
  ∨ (∃ value row, value ∈ range 1 10 ∧ row ∈ range 0 9 ∧ g = row_group value row)
  ∨ (∃ value col, value ∈ range 1 10 ∧ col ∈ range 0 9 ∧ g = col_group value col)
  ∨ (∃ value br bc, value ∈ range 1 10 ∧ br ∈ range 0 3 ∧ bc ∈ range 0 3
       ∧ g = box_group value (3 * br) (3 * bc)).
Proof.
  unfold groups, cell_groups, row_groups, col_groups, box_groups.
  rewrite !elem_of_app. repeat setoid_rewrite list_elem_of_bind.
  setoid_rewrite list_elem_of_singleton. setoid_rewrite elem_of_offsets.
  intros [H|[H|[H|H]]].
  - left. destruct H as (r & (c & -> & ?) & ?). by exists r, c.
  - right. left. destruct H as (v & (r & -> & ?) & ?). by exists v, r.
  - right. right. left. destruct H as (v & (c & -> & ?) & ?). by exists v, c.
  - right. right. right. destruct H as (v & (ro & (co & -> & Hco) & Hro) & ?).
    exists v, (ro `div` 3), (co `div` 3).
    destruct Hro as [->|[->| ->]], Hco as [->|[->| ->]];
      (split; [done|]); (split; [apply elem_of_range; split; by vm_compute|]);
      (split; [apply elem_of_range; split; by vm_compute|]);
      reflexivity.
Qed.

Section grid_to_rules.
Context (sol : list Key).
Hypothesis Hsol : valid_solution sol.

Lemma valid_NoDup_coords : NoDup (fst <$> sol).
Proof. rewrite (sol_cover _ Hsol). apply NoDup_cells. Qed.

Lemma valid_elem_candidate k : k ∈ sol → is_candidate k.
Proof.
  intros Hk. split.
  - assert (k.1 ∈ cells) as Hc.
    { rewrite <- (sol_cover _ Hsol). by apply list_elem_of_fmap_2. }
    apply elem_of_cells in Hc as [?%elem_of_range ?%elem_of_range]. lia.
  - by apply (proj1 (Forall_forall _ _) (sol_values _ Hsol)).
Qed.

Lemma valid_cell_lookup rc : rc ∈ cells → ∃ k, k ∈ sol ∧ k.1 = rc.
Proof.
  rewrite <- (sol_cover _ Hsol). intros (k & -> & Hk)%list_elem_of_fmap. by exists k.
Qed.

(** Within a unit whose values have no repeat, a value is held by at most
    one cell. *)
Lemma unit_value_unique (Q : Key → Prop) `{!∀ k, Decision (Q k)} a b :
  snd <$> filter Q sol ≡ₚ range 1 10 →
  a ∈ sol → b ∈ sol → Q a → Q b → a.2 = b.2 → a = b.
Proof.
  intros Hp Ha Hb HQa HQb Heq.
  apply (NoDup_fmap_inj_on snd (filter Q sol)); [|by apply list_elem_of_filter..|done].
  rewrite Hp. apply NoDup_seqZ.
Qed.

Lemma unit_value_exists (Q : Key → Prop) `{!∀ k, Decision (Q k)} v :
  snd <$> filter Q sol ≡ₚ range 1 10 →
  v ∈ range 1 10 → ∃ k, k ∈ sol ∧ Q k ∧ k.2 = v.
Proof.
  intros Hp Hv. rewrite <- Hp in Hv.
  apply list_elem_of_fmap in Hv as (k & -> & [? ?]%list_elem_of_filter). by exists k.
Qed.

Lemma valid_solution_rules g : g ∈ groups → exactly_one (λ k, k ∈ sol) g.
Proof.
  intros Hg.
  pose proof (proj1 (Forall_forall _ _) groups_sound g Hg) as [Hnd _].
  apply groups_inv in Hg as [Hg|[Hg|[Hg|Hg]]].
  - destruct Hg as (row & col & Hr & Hc & ->).
    destruct (valid_cell_lookup (row, col)) as (k & Hk & Hrc).
    { by apply elem_of_cells. }
    apply (exactly_one_intro _ _ k); [done| |done|].
    + apply elem_of_cell_group. split; [done|].
      apply elem_of_range. pose proof (valid_elem_candidate k Hk) as [_ ?]. lia.
    + intros b [Hb _]%elem_of_cell_group Hbs.
      apply (NoDup_fmap_inj_on fst sol); [apply valid_NoDup_coords|done..|congruence].
  - destruct Hg as (v & row & Hv & Hr & ->).
    destruct (unit_value_exists (λ k, k.1.1 = row) v) as (k & Hk & HQ & Hkv);
      [by apply (sol_rows _ Hsol)|done|].
    apply (exactly_one_intro _ _ k); [done| |done|].
    + apply elem_of_row_group. split; [done|]. split; [|done].
      apply elem_of_range. pose proof (valid_elem_candidate k Hk) as [[_ ?] _]. lia.
    + intros b (Hb & _ & Hbv)%elem_of_row_group Hbs.
      apply (unit_value_unique (λ k, k.1.1 = row)); [by apply (sol_rows _ Hsol)|done..|congruence].
  - destruct Hg as (v & col & Hv & Hc & ->).
    destruct (unit_value_exists (λ k, k.1.2 = col) v) as (k & Hk & HQ & Hkv);
      [by apply (sol_cols _ Hsol)|done|].
    apply (exactly_one_intro _ _ k); [done| |done|].
    + apply elem_of_col_group. split; [|done].
      apply elem_of_range. pose proof (valid_elem_candidate k Hk) as [[? _] _]. lia.
    + intros b (_ & Hb & Hbv)%elem_of_col_group Hbs.
      apply (unit_value_unique (λ k, k.1.2 = col)); [by apply (sol_cols _ Hsol)|done..|congruence].
  - destruct Hg as (v & br & bc & Hv & Hr & Hc & ->).
    destruct (unit_value_exists (λ k, k.1.1 `div` 3 = br ∧ k.1.2 `div` 3 = bc) v)
      as (k & Hk & HQ & Hkv); [by apply (sol_boxes _ Hsol)|done|].
    apply (exactly_one_intro _ _ k); [done| |done|].
    + by apply elem_of_box_group.
    + intros b [Hb Hbv]%elem_of_box_group Hbs; [|done..].
      apply (unit_value_unique (λ k, k.1.1 `div` 3 = br ∧ k.1.2 `div` 3 = bc));
        [by apply (sol_boxes _ Hsol)|done..|congruence].
Qed.
End grid_to_rules.

(** ** The whole run *)

Lemma filter_ext_in {A} (P Q : A → Prop) `{!∀ a, Decision (P a)} `{!∀ a, Decision (Q a)} (l : list A) :
  (∀ a, a ∈ l → P a ↔ Q a) → filter P l = filter Q l.
Proof.
  induction l as [|a l IH]; intros Hiff; [done|].
  assert (filter P l = filter Q l) as IH'.
  { apply IH. intros b Hb. apply Hiff. by right. }
  destruct (decide (P a)) as [HP|HP].
  - rewrite (filter_cons_True P), (filter_cons_True Q), IH'; [done| |done]. apply Hiff; [by left|done].
  - rewrite (filter_cons_False P), (filter_cons_False Q), IH'; [done| |done].
    intros HQ. apply HP, Hiff; [by left|done].
Qed.

Lemma head_filter_None {A} (P : A → Prop) `{!∀ a, Decision (P a)} (l : list A) :
  head (filter P l) = None ↔ Forall (λ a, ¬ P a) l.
Proof.
  rewrite head_None. induction l as [|a l IH].
  - split; [constructor|done].
  - rewrite Forall_cons. destruct (decide (P a)) as [HP|HP].
    + rewrite filter_cons_True by done. split; [done|]. by intros [? _].
    + rewrite filter_cons_False by done. rewrite IH. tauto.
Qed.

Lemma well_formed_not_rejected k : well_formed k → ¬ rejected k.
Proof.
  unfold well_formed, rejected, forced, is_candidate. intros Hw [Hf Hn].
  apply Hn. lia.
Qed.

Lemma __init___inr starting_cells s :
  __init__ starting_cells = inr s
  ↔ Forall (λ k, ¬ rejected k) starting_cells ∧ s = built starting_cells.
Proof.
  rewrite __init___eq.
  destruct (head (filter rejected starting_cells)) as [k|] eqn:Hh.
  - split; [intros [=]|]. intros [Hok _].
    apply (head_filter_None rejected) in Hok. congruence.
  - apply (head_filter_None rejected) in Hh. split.
    + by intros [= <-].
    + by intros [_ ->].
Qed.

Lemma __init___well_formed starting_cells :
  Forall well_formed starting_cells →
  __init__ starting_cells = inr (built starting_cells).
Proof.
  intros Hw. apply __init___inr. split; [|done].
  eapply Forall_impl; [exact Hw|]. apply well_formed_not_rejected.
Qed.

Lemma constraints_built starting_cells :
  constraints (prob (built starting_cells))
  = fixed_constraints ++ forcing_constraints starting_cells.
Proof. reflexivity. Qed.

(** A status of [Optimal] under the contract: the values satisfy the
    problem, and the solution read back lists the candidates set to 1. *)
Lemma optimal_read backend starting_cells :
  Forall (λ k, ¬ rejected k) starting_cells →
  optimal_sound_on backend (prob (built starting_cells)) →
  (solve_puzzle backend (built starting_cells)).1 = "Optimal"%string →
  ∃ x, satisfies x (var <$> candidates)
         (fixed_constraints ++ forcing_constraints starting_cells)
       ∧ parse_solution (solve_puzzle backend (built starting_cells)).2
         = inr (filter (λ k, x (var k) = 1) candidates).
Proof.
  intros Hok Hsound Hst.
  rewrite solve_puzzle_status in Hst. apply LpStatus_Optimal in Hst.
  destruct (Hsound Hst) as (x & Hagree & Hsat).
  rewrite variablesDict_built in Hagree, Hsat by done.
  rewrite constraints_built in Hsat.
  exists x. split; [done|].
  rewrite parse_solution_eq.
  - f_equal. rewrite solve_puzzle_values. apply filter_ext_in. intros k Hk.
    assert ((backend (constraints (prob (built starting_cells)))).2 (var k) = Some (x (var k))) as ->.
    { apply (proj1 (Forall_forall _ _) Hagree). by apply list_elem_of_fmap_2. }
    split; [by intros [=]|by intros ->].
  - rewrite variablesDict_solve_puzzle. by apply variablesDict_built.
Qed.

(** The values that mark a solved grid are 0/1 and satisfy the problem of
    any list of givens that the grid contains. *)
Lemma marks_candidate sol k :
  is_candidate k → Forall is_candidate sol → marks sol (var k) = 1 ↔ k ∈ sol.
Proof.
  intros Hk Hsol. unfold marks. case_decide as Hin; split; try done.
  - intros _. apply list_elem_of_fmap in Hin as (k' & Heq & Hk').
    assert (k = k') as ->; [|done].
    apply var_inj_candidates; [by apply elem_of_candidates| |done].
    apply elem_of_candidates. by apply (proj1 (Forall_forall _ _) Hsol).
  - intros Hks. exfalso. apply Hin. by apply list_elem_of_fmap_2.
Qed.

Lemma marks_binary sol v : 0 ≤ marks sol v ≤ 1.
Proof. unfold marks. case_decide; lia. Qed.

Lemma marks_satisfies sol starting_cells :
  valid_solution sol →
  (∀ k, k ∈ starting_cells → forced k → k ∈ sol) →
  satisfies (marks sol) (var <$> candidates)
    (fixed_constraints ++ forcing_constraints starting_cells).
Proof.
  intros Hsol Hgiv.
  assert (Forall is_candidate sol) as Hc.
  { apply Forall_forall. intros k. by apply (valid_elem_candidate sol). }
  apply satisfies_intro.
  - intros k _. apply marks_binary.
  - intros g Hg. apply (exactly_one_iff (λ k, k ∈ sol) (λ k, marks sol (var k) = 1));
      [|by apply valid_solution_rules].
    intros k Hk. symmetry. apply marks_candidate; [|done].
    by apply (elem_of_group_candidate g).
  - intros k Hk Hf. apply marks_candidate; [| done |by apply Hgiv].
    apply (valid_elem_candidate sol); [done|by apply Hgiv].
Qed.

Lemma hard_puzzle_soln_valid : valid_solution hard_puzzle_soln.
Proof.
  split.
  - reflexivity.
  - apply (bool_decide_unpack _). vm_compute. exact I.
  - apply (bool_decide_unpack _). vm_compute. exact I.
  - intros row H. range_cases H; apply (bool_decide_unpack _); vm_compute; exact I.
  - intros col H. range_cases H; apply (bool_decide_unpack _); vm_compute; exact I.
  - intros br bc Hr Hc. apply elem_of_range in Hr, Hc.
    assert (br = 0 ∨ br = 1 ∨ br = 2) as [->|[->| ->]] by lia;
    assert (bc = 0 ∨ bc = 1 ∨ bc = 2) as [->|[->| ->]] by lia;
    apply (bool_decide_unpack _); vm_compute; exact I.
Qed.

(** ** The rules as the data model words them *)

Lemma box_group_cells value br bc :
  br ∈ range 0 3 → bc ∈ range 0 3 →
  (λ rc : Z * Z, (rc.1, rc.2, value)) <$> box_cells br bc
  = box_group value (3 * br) (3 * bc).
Proof.
  intros Hr Hc. apply elem_of_range in Hr, Hc.
  assert (br = 0 ∨ br = 1 ∨ br = 2) as [->|[->| ->]] by lia;
  assert (bc = 0 ∨ bc = 1 ∨ bc = 2) as [->|[->| ->]] by lia;
  vm_compute; reflexivity.
Qed.

Lemma satisfying_assignment_groups a starting_cells :
  satisfying_assignment a starting_cells
  ↔ (∀ g, g ∈ groups → exactly_one (λ k, a k = true) g)
    ∧ (∀ k, k ∈ starting_cells → k.2 ≠ 0 → a k = true).
Proof.
  split.
  - intros [Hcell Hrow Hcol Hbox Hgiv]. split; [|done].
    intros g [Hg|[Hg|[Hg|Hg]]]%groups_inv.
    + destruct Hg as (row & col & ? & ? & ->). by apply Hcell.
    + destruct Hg as (v & row & ? & ? & ->). by apply Hrow.
    + destruct Hg as (v & col & ? & ? & ->). by apply Hcol.
    + destruct Hg as (v & br & bc & ? & ? & ? & ->).
      rewrite <- box_group_cells by done. by apply Hbox.
  - intros [Hg Hgiv]. split; [| | | |done].
    + intros row col ? ?. by apply (Hg (cell_group row col)), cell_group_in.
    + intros row v ? ?. by apply (Hg (row_group v row)), row_group_in.
    + intros col v ? ?. by apply (Hg (col_group v col)), col_group_in.
    + intros br bc v ? ? ?. rewrite box_group_cells by done.
      by apply Hg, box_group_in.
Qed.

Lemma well_formed_forced k : well_formed k → forced k ↔ k.2 ≠ 0.
Proof. unfold well_formed, forced. lia. Qed.

Lemma well_formed_forced_candidate k : well_formed k → forced k → is_candidate k.
Proof. unfold well_formed, forced, is_candidate. lia. Qed.

Lemma well_formed_ok starting_cells :
  Forall well_formed starting_cells → Forall (λ k, ¬ rejected k) starting_cells.
Proof. intros Hw. eapply Forall_impl; [exact Hw|]. apply well_formed_not_rejected. Qed.

Lemma values_of_assignment_var a k :
  is_candidate k → values_of_assignment a (var k) = if a k then 1 else 0.
Proof.
  intros Hk%elem_of_candidates. unfold values_of_assignment.
  by rewrite (proj1 (Forall_forall _ _) key_of_name_candidates k Hk).
Qed.

(** The problem built from well-formed givens is feasible exactly when the
    rules of the data model have a satisfying assignment. *)
Lemma feasible_built starting_cells :
  Forall well_formed starting_cells →
  feasible (prob (built starting_cells))
  ↔ ∃ a, satisfying_assignment a starting_cells.
Proof.
  intros Hw. unfold feasible.
  rewrite variablesDict_built, constraints_built by by apply well_formed_ok.
  split.
  - intros [x Hsat]. exists (λ k, bool_decide (x (var k) = 1)).
    apply satisfying_assignment_groups. split.
    + intros g Hg.
      apply (exactly_one_iff (λ k, x (var k) = 1)
               (λ k, bool_decide (x (var k) = 1) = true));
        [|by apply (sat_group x starting_cells)].
      intros k _. by rewrite bool_decide_eq_true.
    + intros k Hk Hnz. apply bool_decide_eq_true.
      apply (sat_given x starting_cells); [done..|].
      apply well_formed_forced; [|done].
      by apply (proj1 (Forall_forall _ _) Hw).
  - intros [a [Hg Hgiv]%satisfying_assignment_groups].
    exists (values_of_assignment a). apply satisfies_intro.
    + intros k Hk. rewrite values_of_assignment_var by done. destruct (a k); lia.
    + intros g Hin.
      apply (exactly_one_iff (λ k, a k = true)
               (λ k, values_of_assignment a (var k) = 1)); [|by apply Hg].
      intros k Hk. rewrite values_of_assignment_var
        by by apply (elem_of_group_candidate g).
      by destruct (a k).
    + intros k Hk Hf.
      pose proof (proj1 (Forall_forall _ _) Hw k Hk) as Hwk.
      rewrite values_of_assignment_var by by apply well_formed_forced_candidate.
      rewrite Hgiv; [done..|]. by apply well_formed_forced.
Qed.

(** ** Backends with a constant answer *)

Lemma answering_sound sol starting_cells :
  valid_solution sol →
  Forall (λ k, ¬ rejected k) starting_cells →
  (∀ k, k ∈ starting_cells → forced k → k ∈ sol) →
  optimal_sound_on (answering sol) (prob (built starting_cells)).
Proof.
  intros Hsol Hok Hgiv _. exists (marks sol). split.
  - apply Forall_forall. by intros v _.
  - rewrite variablesDict_built, constraints_built by done.
    by apply marks_satisfies.
Qed.

Lemma answering_exact sol starting_cells :
  valid_solution sol →
  Forall (λ k, ¬ rejected k) starting_cells →
  (∀ k, k ∈ starting_cells → forced k → k ∈ sol) →
  exact_on (answering sol) (prob (built starting_cells)).
Proof.
  intros Hsol Hok Hgiv. split.
  - by apply answering_sound.
  - intros [=].
  - by left.
Qed.

Lemma refusing_exact p : ¬ feasible p → exact_on refusing p.
Proof.
  intros Hno. split.
  - intros [=].
  - done.
  - by right.
Qed.

Lemma exact_optimal_sound backend p : exact_on backend p → optimal_sound_on backend p.
Proof. intros [H _ _]. exact H. Qed.

(** Under the full contract the status is decided by feasibility. *)
Lemma exact_status backend s :
  exact_on backend (prob s) →
  (feasible (prob s) → (solve_puzzle backend s).1 = "Optimal"%string)
  ∧ (¬ feasible (prob s) → (solve_puzzle backend s).1 = "Infeasible"%string).
Proof.
  intros [Hopt Hinf Hterm]. rewrite solve_puzzle_status. split.
  - intros Hf. destruct Hterm as [->| Hi]; [done|]. by destruct (Hinf Hi).
  - intros Hn. destruct Hterm as [Ho| ->]; [|done].
    destruct (Hopt Ho) as (x & _ & Hsat). destruct Hn. by exists x.
Qed.

(** ** Givens that clash *)

(** Two candidates of one group cannot both be forced. *)
Lemma clash_infeasible starting_cells g k1 k2 :
  g ∈ groups → k1 ∈ g → k2 ∈ g → k1 ≠ k2 →
  k1 ∈ starting_cells → k2 ∈ starting_cells → forced k1 → forced k2 →
  ∀ x, ¬ satisfies x (var <$> candidates)
           (fixed_constraints ++ forcing_constraints starting_cells).
Proof.
  intros Hg H1 H2 Hne Hs1 Hs2 Hf1 Hf2 x Hsat. apply Hne.
  apply (exactly_one_unique (λ k, x (var k) = 1) g); [|done..| |].
  - by apply (sat_group x starting_cells).
  - by apply (sat_given x starting_cells).
  - by apply (sat_given x starting_cells).
Qed.

Lemma div3_range r : 0 ≤ r ≤ 8 → r `div` 3 ∈ range 0 3.
Proof.
  intros Hr. apply elem_of_range.
  pose proof (Z.div_mod r 3). pose proof (Z.mod_pos_bound r 3). lia.
Qed.

(** Two well-formed givens with one value in one row, column or box lie in
    a common group. *)
Lemma same_unit_group k1 k2 :
  well_formed k1 → well_formed k2 → forced k1 → k1.2 = k2.2 → same_unit k1 k2 →
  ∃ g, g ∈ groups ∧ k1 ∈ g ∧ k2 ∈ g.
Proof.
  intros [[Hr1 Hc1] Hv1] [[Hr2 Hc2] Hv2] Hf Hv Hu. unfold forced in Hf.
  assert (k1.2 ∈ range 1 10) as Hvr by (apply elem_of_range; lia).
  destruct Hu as [Hu|[Hu|[Hu1 Hu2]]].
  - exists (row_group k1.2 k1.1.1). split.
    + apply row_group_in; [done|]. apply elem_of_range. lia.
    + rewrite !elem_of_row_group, !elem_of_range. repeat split; (done || lia).
  - exists (col_group k1.2 k1.1.2). split.
    + apply col_group_in; [done|]. apply elem_of_range. lia.
    + rewrite !elem_of_col_group, !elem_of_range. repeat split; (done || lia).
  - exists (box_group k1.2 (3 * (k1.1.1 `div` 3)) (3 * (k1.1.2 `div` 3))). split.
    + apply box_group_in; [done|by apply div3_range..].
    + rewrite !elem_of_box_group by by apply div3_range. repeat split; (done || lia).
Qed.

(** * The claims *)

Lemma hard_puzzle_well_formed : Forall well_formed hard_puzzle.
Proof. apply (bool_decide_unpack _). vm_compute. exact I. Qed.

Lemma hard_puzzle_in_soln k : k ∈ hard_puzzle → forced k → k ∈ hard_puzzle_soln.
Proof.
  intros Hk _. revert k Hk. apply Forall_forall.
  apply (bool_decide_unpack _). vm_compute. exact I.
Qed.

Lemma hard_puzzle_exact :
  exact_on (answering hard_puzzle_soln) (prob (built hard_puzzle)).
Proof.
  apply answering_exact.
  - apply hard_puzzle_soln_valid.
  - apply well_formed_ok, hard_puzzle_well_formed.
  - apply hard_puzzle_in_soln.
Qed.

(** C1. For every list of given cells with coordinates in [0,8] and values in
    [0,9], and a backend that keeps its contract on the problem built from
    them, construction succeeds and [solve_puzzle] returns "Optimal" when
    the rules of the data model (one true candidate per cell, per row and
    value, per column and value, per box and value, and the candidate of
    every nonzero given true) have a satisfying assignment, and
    "Infeasible" when they have none. *)
Theorem solve_puzzle_verdict backend starting_cells :
  Forall well_formed starting_cells →
  exact_on backend (prob (built starting_cells)) →
  __init__ starting_cells = inr (built starting_cells)
  ∧ ((∃ a, satisfying_assignment a starting_cells) →
     (solve_puzzle backend (built starting_cells)).1 = "Optimal"%string)
  ∧ ((¬ ∃ a, satisfying_assignment a starting_cells) →
     (solve_puzzle backend (built starting_cells)).1 = "Infeasible"%string).
Proof.
  intros Hw Hex. split; [by apply __init___well_formed|].
  destruct (exact_status backend (built starting_cells) Hex) as [Hyes Hno].
  split.
  - intros Ha. by apply Hyes, feasible_built.
  - intros Ha. apply Hno. by rewrite feasible_built.
Qed.

Lemma solve_puzzle_verdict_witness :
  Forall well_formed hard_puzzle
  ∧ exact_on (answering hard_puzzle_soln) (prob (built hard_puzzle))
  ∧ (__init__ hard_puzzle = inr (built hard_puzzle)
     ∧ ((∃ a, satisfying_assignment a hard_puzzle) →
        (solve_puzzle (answering hard_puzzle_soln) (built hard_puzzle)).1
        = "Optimal"%string)
     ∧ ((¬ ∃ a, satisfying_assignment a hard_puzzle) →
        (solve_puzzle (answering hard_puzzle_soln) (built hard_puzzle)).1
        = "Infeasible"%string)).
Proof.
  split; [apply hard_puzzle_well_formed|]. split; [apply hard_puzzle_exact|].
  apply (solve_puzzle_verdict (answering hard_puzzle_soln) hard_puzzle).
  - apply hard_puzzle_well_formed.
  - apply hard_puzzle_exact.
Defined.

(** C2. Whenever construction succeeds and [solve_puzzle] returns "Optimal"
    from a backend whose [Optimal] is sound, [parse_solution] returns a list
    of exactly 81 triples that covers every cell once (in row-major order),
    with every value in [1,9] and the values of every row, column and box a
    permutation of 1..9. *)
Theorem parse_solution_valid backend starting_cells s :
  __init__ starting_cells = inr s →
  optimal_sound_on backend (prob s) →
  (solve_puzzle backend s).1 = "Optimal"%string →
  ∃ sol, parse_solution (solve_puzzle backend s).2 = inr sol
         ∧ valid_solution sol ∧ fst <$> sol = cells.
Proof.
  intros Hi Hsound Hst. apply __init___inr in Hi as [Hok ->].
  destruct (optimal_read backend starting_cells Hok Hsound Hst) as (x & Hsat & ->).
  eexists. split; [done|]. split.
  - apply rules_give_valid_solution. by apply (sat_group x starting_cells).
  - apply grid_cover. by apply (sat_group x starting_cells).
Qed.

Lemma parse_solution_valid_witness :
  __init__ hard_puzzle = inr (built hard_puzzle)
  ∧ optimal_sound_on (answering hard_puzzle_soln) (prob (built hard_puzzle))
  ∧ (solve_puzzle (answering hard_puzzle_soln) (built hard_puzzle)).1
    = "Optimal"%string
  ∧ ∃ sol, parse_solution
             (solve_puzzle (answering hard_puzzle_soln) (built hard_puzzle)).2
           = inr sol
           ∧ valid_solution sol ∧ fst <$> sol = cells.
Proof.
  assert (__init__ hard_puzzle = inr (built hard_puzzle)) as Hi
    by apply __init___well_formed, hard_puzzle_well_formed.
  assert (optimal_sound_on (answering hard_puzzle_soln) (prob (built hard_puzzle)))
    as Hs by apply exact_optimal_sound, hard_puzzle_exact.
  split; [exact Hi|]. split; [exact Hs|]. split; [reflexivity|].
  apply (parse_solution_valid (answering hard_puzzle_soln) hard_puzzle
           (built hard_puzzle) Hi Hs).
  reflexivity.
Defined.

(** C3. Whenever construction succeeds and [solve_puzzle] returns "Optimal"
    from a backend whose [Optimal] is sound, every given cell supplied with
    a nonzero value (values are never negative) is a triple of the solution
    that [parse_solution] returns, and no other triple of the solution has
    its coordinate. *)
Theorem parse_solution_keeps_givens backend starting_cells s k :
  __init__ starting_cells = inr s →
  optimal_sound_on backend (prob s) →
  (solve_puzzle backend s).1 = "Optimal"%string →
  k ∈ starting_cells → 0 ≤ k.2 → k.2 ≠ 0 →
  ∃ sol, parse_solution (solve_puzzle backend s).2 = inr sol
         ∧ k ∈ sol ∧ ∀ k', k' ∈ sol → k'.1 = k.1 → k' = k.
Proof.
  intros Hi Hsound Hst Hk H0 Hnz. apply __init___inr in Hi as [Hok ->].
  destruct (optimal_read backend starting_cells Hok Hsound Hst) as (x & Hsat & ->).
  assert (forced k) as Hf by (unfold forced; lia).
  assert (k ∈ filter (λ k, x (var k) = 1) candidates) as Hin.
  { apply list_elem_of_filter. split; [by apply (sat_given x starting_cells)|].
    apply elem_of_candidates. destruct (decide (is_candidate k)) as [|Hn]; [done|].
    destruct (proj1 (Forall_forall _ _) Hok k Hk). by split. }
  eexists. split; [done|]. split; [done|].
  intros k' Hk' Heq.
  apply (NoDup_fmap_inj_on fst (filter (λ k, x (var k) = 1) candidates)); [|done..].
  rewrite grid_cover by by apply (sat_group x starting_cells). apply NoDup_cells.
Qed.

Lemma parse_solution_keeps_givens_witness :
  __init__ hard_puzzle = inr (built hard_puzzle)
  ∧ optimal_sound_on (answering hard_puzzle_soln) (prob (built hard_puzzle))
  ∧ (solve_puzzle (answering hard_puzzle_soln) (built hard_puzzle)).1
    = "Optimal"%string
  ∧ (3, 0, 8) ∈ hard_puzzle ∧ 0 ≤ 8 ∧ 8 ≠ 0
  ∧ ∃ sol, parse_solution
             (solve_puzzle (answering hard_puzzle_soln) (built hard_puzzle)).2
           = inr sol
           ∧ (3, 0, 8) ∈ sol ∧ ∀ k', k' ∈ sol → k'.1 = (3, 0) → k' = (3, 0, 8).
Proof.
  assert (__init__ hard_puzzle = inr (built hard_puzzle)) as Hi
    by apply __init___well_formed, hard_puzzle_well_formed.
  assert (optimal_sound_on (answering hard_puzzle_soln) (prob (built hard_puzzle)))
    as Hs by apply exact_optimal_sound, hard_puzzle_exact.
  assert ((3, 0, 8) ∈ hard_puzzle) as Hin
    by (apply (bool_decide_unpack _); vm_compute; exact I).
  split; [exact Hi|]. split; [exact Hs|]. split; [reflexivity|].
  split; [exact Hin|]. split; [lia|]. split; [lia|].
  apply (parse_solution_keeps_givens (answering hard_puzzle_soln) hard_puzzle
           (built hard_puzzle) (3, 0, 8) Hi Hs); [reflexivity|exact Hin|cbn; lia..].
Defined.

Lemma clash_not_feasible starting_cells k1 k2 :
  Forall well_formed starting_cells →
  k1 ∈ starting_cells → k2 ∈ starting_cells →
  k1.1 ≠ k2.1 → same_unit k1 k2 → k1.2 = k2.2 → k1.2 ≠ 0 →
  ¬ feasible (prob (built starting_cells)).
Proof.
  intros Hw H1 H2 Hne Hu Hv Hnz [x Hsat].
  rewrite variablesDict_built, constraints_built in Hsat by by apply well_formed_ok.
  pose proof (proj1 (Forall_forall _ _) Hw k1 H1) as Hw1.
  pose proof (proj1 (Forall_forall _ _) Hw k2 H2) as Hw2.
  assert (forced k1) as Hf1 by by apply well_formed_forced.
  assert (forced k2) as Hf2 by (apply well_formed_forced; [done|congruence]).
  destruct (same_unit_group k1 k2) as (g & Hg & Hg1 & Hg2); [done..|].
  apply (clash_infeasible starting_cells g k1 k2) with x; try done.
  congruence.
Qed.

(** C4. For every list of well-formed given cells that holds two givens at
    distinct coordinates of one row, one column or one box with the same
    nonzero value, and a backend that keeps its contract, construction
    succeeds and [solve_puzzle] returns the status "Infeasible". *)
Theorem conflicting_givens_infeasible backend starting_cells k1 k2 :
  Forall well_formed starting_cells →
  exact_on backend (prob (built starting_cells)) →
  k1 ∈ starting_cells → k2 ∈ starting_cells →
  k1.1 ≠ k2.1 → same_unit k1 k2 → k1.2 = k2.2 → k1.2 ≠ 0 →
  __init__ starting_cells = inr (built starting_cells)
  ∧ (solve_puzzle backend (built starting_cells)).1 = "Infeasible"%string.
Proof.
  intros Hw Hex H1 H2 Hne Hu Hv Hnz. split; [by apply __init___well_formed|].
  apply (exact_status backend (built starting_cells) Hex).
  by apply (clash_not_feasible starting_cells k1 k2).
Qed.

Lemma invalid_puzzle_well_formed : Forall well_formed invalid_puzzle.
Proof. apply (bool_decide_unpack _). vm_compute. exact I. Qed.

Lemma invalid_puzzle_not_feasible : ¬ feasible (prob (built invalid_puzzle)).
Proof.
  apply (clash_not_feasible invalid_puzzle (0, 0, 1) (0, 1, 1)).
  - apply invalid_puzzle_well_formed.
  - by left.
  - right. by left.
  - by intros [=].
  - by left.
  - reflexivity.
  - by intros [=].
Qed.

Lemma conflicting_givens_infeasible_witness :
  Forall well_formed invalid_puzzle
  ∧ exact_on refusing (prob (built invalid_puzzle))
  ∧ (0, 0, 1) ∈ invalid_puzzle ∧ (0, 1, 1) ∈ invalid_puzzle
  ∧ (0, 0) ≠ (0, 1) ∧ same_unit (0, 0, 1) (0, 1, 1) ∧ 1 = 1 ∧ 1 ≠ 0
  ∧ __init__ invalid_puzzle = inr (built invalid_puzzle)
  ∧ (solve_puzzle refusing (built invalid_puzzle)).1 = "Infeasible"%string.
Proof.
  assert (exact_on refusing (prob (built invalid_puzzle))) as Hex
    by apply refusing_exact, invalid_puzzle_not_feasible.
  assert ((0, 0, 1) ∈ invalid_puzzle) as H1 by by left.
  assert ((0, 1, 1) ∈ invalid_puzzle) as H2 by (right; by left).
  assert (((0, 0) : Z * Z) ≠ (0, 1)) as Hne by by intros [=].
  assert (same_unit (0, 0, 1) (0, 1, 1)) as Hu by by left.
  split; [apply invalid_puzzle_well_formed|]. split; [exact Hex|].
  split; [exact H1|]. split; [exact H2|]. split; [exact Hne|]. split; [exact Hu|].
  split; [reflexivity|]. split; [lia|].
  apply (conflicting_givens_infeasible refusing invalid_puzzle (0, 0, 1) (0, 1, 1)
           invalid_puzzle_well_formed Hex H1 H2 Hne Hu); [reflexivity|cbn; lia].
Defined.

(** C5, as the code has it. Construction fails exactly when some given has a
    value above 0 and is no candidate key (row or column outside [0,8], or
    value above 9); the failure is the [KeyError] of the first such given,
    raised by the lookup of its variable. A given with a value of 0 or
    below is passed over without any check. *)
Theorem construction_rejects_iff starting_cells :
  (Exists rejected starting_cells
   ↔ ∃ k, __init__ starting_cells = inl (KeyError k)
          ∧ head (filter rejected starting_cells) = Some k)
  ∧ (¬ Exists rejected starting_cells
     ↔ __init__ starting_cells = inr (built starting_cells)).
Proof.
  rewrite __init___eq.
  destruct (head (filter rejected starting_cells)) as [k|] eqn:Hh.
  - assert (Exists rejected starting_cells) as Hex.
    { apply Exists_exists. exists k.
      apply head_Some_elem_of, list_elem_of_filter in Hh. tauto. }
    split; split; try done.
    intros _. by exists k.
  - apply (head_filter_None rejected) in Hh.
    assert (¬ Exists rejected starting_cells) as Hex.
    { rewrite Exists_exists. intros (k & Hk & Hr).
      by apply (proj1 (Forall_forall _ _) Hh k Hk). }
    split; split; try done.
    by intros (k & [=] & _).
Qed.

(** C5 fails as stated: a given with a row outside [0,8] and the value 0, and
    a given with a negative value, are both accepted by construction. *)
Lemma construction_accepts_out_of_range :
  Exists (λ k, ¬ well_formed k) [(9, 0, 0)]
  ∧ Exists (λ k, ¬ well_formed k) [(0, 0, -1)]
  ∧ __init__ [(9, 0, 0)] = inr (built [(9, 0, 0)])
  ∧ __init__ [(0, 0, -1)] = inr (built [(0, 0, -1)]).
Proof.
  split; [|split; [|split]].
  - apply Exists_cons_hd. unfold well_formed. cbn. lia.
  - apply Exists_cons_hd. unfold well_formed. cbn. lia.
  - apply __init___inr. split; [|done].
    apply Forall_singleton. unfold rejected, forced. cbn. lia.
  - apply __init___inr. split; [|done].
    apply Forall_singleton. unfold rejected, forced. cbn. lia.
Qed.

(** C6. A call of [Solver] without argument raises [TypeError], while the
    fixture of the tests makes that very call; a call with the empty list
    succeeds and adds no forcing constraint to the 324 rules. *)
Theorem construction_no_argument :
  new_Solver [] = inl TypeError
  ∧ new_Solver [[]] = inr (built [])
  ∧ constraints (prob (built [])) = fixed_constraints
  ∧ forcing_constraints [] = [].
Proof.
  split; [reflexivity|]. split; [|split; [|reflexivity]].
  - cbn [new_Solver]. by apply __init___well_formed.
  - rewrite constraints_built. cbn. by rewrite app_nil_r.
Qed.

Lemma fixed_constraints_families :
  fixed_constraints
  = (group_constraint <$> cell_groups) ++ (group_constraint <$> row_groups)
    ++ (group_constraint <$> col_groups) ++ (group_constraint <$> box_groups).
Proof. unfold fixed_constraints, groups. by rewrite !fmap_app. Qed.

Lemma forcing_constraints_nonzero starting_cells :
  Forall well_formed starting_cells →
  forcing_constraints starting_cells
  = (λ k, eq_const [var k] 1) <$> filter (λ k, k.2 ≠ 0) starting_cells.
Proof.
  intros Hw. unfold forcing_constraints. f_equal.
  apply (filter_ext_in forced (λ k, k.2 ≠ 0)). intros k Hk.
  apply well_formed_forced. by apply (proj1 (Forall_forall _ _) Hw).
Qed.

(** C7. For every list of well-formed given cells, construction builds, in
    this order, 81 cell rules, 81 row-value rules, 81 column-value rules and
    81 box-value rules, whatever the input, and then one forcing constraint
    per given with a nonzero value: 324 plus the number of such givens. *)
Theorem constraint_counts starting_cells :
  Forall well_formed starting_cells →
  ∃ s, __init__ starting_cells = inr s
       ∧ constraints (prob s)
         = (group_constraint <$> cell_groups) ++ (group_constraint <$> row_groups)
           ++ (group_constraint <$> col_groups) ++ (group_constraint <$> box_groups)
           ++ ((λ k, eq_const [var k] 1) <$> filter (λ k, k.2 ≠ 0) starting_cells)
       ∧ length cell_groups = 81%nat ∧ length row_groups = 81%nat
       ∧ length col_groups = 81%nat ∧ length box_groups = 81%nat
       ∧ length (constraints (prob s))
         = (324 + length (filter (λ k : Key, k.2 ≠ 0%Z) starting_cells))%nat.
Proof.
  intros Hw. exists (built starting_cells).
  split; [by apply __init___well_formed|].
  rewrite constraints_built, forcing_constraints_nonzero by done.
  split; [by rewrite fixed_constraints_families, <- !app_assoc|].
  do 4 (split; [reflexivity|]).
  rewrite length_app, length_fmap. f_equal.
Qed.

Lemma constraint_counts_witness :
  Forall well_formed hard_puzzle
  ∧ ∃ s, __init__ hard_puzzle = inr s
       ∧ constraints (prob s)
         = (group_constraint <$> cell_groups) ++ (group_constraint <$> row_groups)
           ++ (group_constraint <$> col_groups) ++ (group_constraint <$> box_groups)
           ++ ((λ k, eq_const [var k] 1) <$> filter (λ k, k.2 ≠ 0) hard_puzzle)
       ∧ length cell_groups = 81%nat ∧ length row_groups = 81%nat
       ∧ length col_groups = 81%nat ∧ length box_groups = 81%nat
       ∧ length (constraints (prob s))
         = (324 + length (filter (λ k : Key, k.2 ≠ 0%Z) hard_puzzle))%nat.
Proof.
  split; [apply hard_puzzle_well_formed|].
  apply (constraint_counts hard_puzzle), hard_puzzle_well_formed.
Defined.

Lemma valid_solution_well_formed sol : valid_solution sol → Forall well_formed sol.
Proof.
  intros Hsol. apply Forall_forall. intros k Hk.
  pose proof (valid_elem_candidate sol Hsol k Hk) as Hc.
  unfold is_candidate in Hc. unfold well_formed. lia.
Qed.

(** C8. For every solved grid given as the list of its 81 cells, and a
    backend that keeps its contract, construction succeeds, [solve_puzzle]
    returns "Optimal" and [parse_solution] returns the same grid: a
    permutation of the givens, listed in row-major order, hence the very
    list of the givens when these come in row-major order. *)
Theorem solved_grid_returned backend grid :
  valid_solution grid →
  exact_on backend (prob (built grid)) →
  __init__ grid = inr (built grid)
  ∧ (solve_puzzle backend (built grid)).1 = "Optimal"%string
  ∧ ∃ sol, parse_solution (solve_puzzle backend (built grid)).2 = inr sol
           ∧ sol ≡ₚ grid ∧ fst <$> sol = cells
           ∧ (fst <$> grid = cells → sol = grid).
Proof.
  intros Hgrid Hex.
  pose proof (valid_solution_well_formed grid Hgrid) as Hw.
  pose proof (well_formed_ok grid Hw) as Hok.
  assert (feasible (prob (built grid))) as Hfeas.
  { exists (marks grid). rewrite variablesDict_built, constraints_built by done.
    by apply marks_satisfies. }
  pose proof (proj1 (exact_status backend (built grid) Hex) Hfeas) as Hst.
  split; [by apply __init___well_formed|]. split; [done|].
  destruct (optimal_read backend grid Hok (exact_optimal_sound _ _ Hex) Hst)
    as (x & Hsat & ->).
  pose proof (sat_group x grid Hsat) as Hg.
  eexists. split; [done|].
  assert (filter (λ k, x (var k) = 1) candidates ≡ₚ grid) as Hperm.
  { symmetry. apply NoDup_incl_length_Permutation.
    - apply (NoDup_fmap_1 fst), (valid_NoDup_coords grid Hgrid).
    - intros k Hk. apply list_elem_of_filter. split.
      + apply (sat_given x grid); [done..|].
        pose proof (valid_elem_candidate grid Hgrid k Hk) as Hc.
        unfold forced, is_candidate in *. lia.
      + by apply elem_of_candidates, (valid_elem_candidate grid).
    - rewrite (grid_length _ Hg), (sol_length _ Hgrid). done. }
  split; [done|]. split; [by apply grid_cover|].
  intros Hrm. apply (Permutation_fmap_eq fst); [done| |].
  - rewrite (grid_cover _ Hg). apply NoDup_cells.
  - by rewrite (grid_cover _ Hg).
Qed.

Lemma solved_grid_returned_witness :
  valid_solution hard_puzzle_soln
  ∧ exact_on (answering hard_puzzle_soln) (prob (built hard_puzzle_soln))
  ∧ __init__ hard_puzzle_soln = inr (built hard_puzzle_soln)
  ∧ (solve_puzzle (answering hard_puzzle_soln) (built hard_puzzle_soln)).1
    = "Optimal"%string
  ∧ ∃ sol, parse_solution
             (solve_puzzle (answering hard_puzzle_soln) (built hard_puzzle_soln)).2
           = inr sol
           ∧ sol ≡ₚ hard_puzzle_soln ∧ fst <$> sol = cells
           ∧ (fst <$> hard_puzzle_soln = cells → sol = hard_puzzle_soln).
Proof.
  assert (exact_on (answering hard_puzzle_soln) (prob (built hard_puzzle_soln)))
    as Hex.
  { apply answering_exact; [apply hard_puzzle_soln_valid| |by intros k ? _].
    apply well_formed_ok, valid_solution_well_formed, hard_puzzle_soln_valid. }
  split; [apply hard_puzzle_soln_valid|]. split; [exact Hex|].
  apply (solved_grid_returned (answering hard_puzzle_soln) hard_puzzle_soln
           hard_puzzle_soln_valid Hex).
Defined.

(** After any run of the backend on a solver that construction returned,
    the solution read back lists the candidates whose variable has the value
    1. *)
Lemma parse_after_solve backend starting_cells :
  Forall (λ k, ¬ rejected k) starting_cells →
  parse_solution (solve_puzzle backend (built starting_cells)).2
  = inr (filter (λ k, (backend (constraints (prob (built starting_cells)))).2 (var k)
                      = Some 1)
                candidates).
Proof.
  intros Hok. rewrite parse_solution_eq.
  - by rewrite solve_puzzle_values.
  - rewrite variablesDict_solve_puzzle. by apply variablesDict_built.
Qed.

(** C9, as the code has it. On a solver that construction returned,
    [parse_solution] never fails and checks nothing about the cells: after
    any answer of the backend it returns, in row-major order of the
    candidates, one triple for every candidate whose variable has the value
    1. *)
Theorem parse_solution_unchecked backend starting_cells s :
  __init__ starting_cells = inr s →
  parse_solution (solve_puzzle backend s).2
  = inr (filter (λ k, (backend (constraints (prob s))).2 (var k) = Some 1)
                candidates).
Proof.
  intros Hi. apply __init___inr in Hi as [Hok ->].
  by apply parse_after_solve.
Qed.

Lemma parse_solution_unchecked_witness :
  __init__ hard_puzzle = inr (built hard_puzzle)
  ∧ parse_solution (solve_puzzle (answering hard_puzzle_soln) (built hard_puzzle)).2
    = inr (filter
             (λ k, (answering hard_puzzle_soln
                      (constraints (prob (built hard_puzzle)))).2 (var k) = Some 1)
             candidates).
Proof.
  assert (__init__ hard_puzzle = inr (built hard_puzzle)) as Hi
    by apply __init___well_formed, hard_puzzle_well_formed.
  split; [exact Hi|].
  apply (parse_solution_unchecked (answering hard_puzzle_soln) hard_puzzle
           (built hard_puzzle) Hi).
Defined.

(** C9 fails as stated: after a status of "Optimal" with two candidates of
    the cell (0,0) at 1 and no candidate of any other cell at 1,
    [parse_solution] returns the two triples and raises nothing. *)
Lemma parse_solution_malformed :
  __init__ [] = inr (built [])
  ∧ (solve_puzzle (answering [(0, 0, 1); (0, 0, 2)]) (built [])).1 = "Optimal"%string
  ∧ parse_solution (solve_puzzle (answering [(0, 0, 1); (0, 0, 2)]) (built [])).2
    = inr [(0, 0, 1); (0, 0, 2)].
Proof.
  assert (__init__ [] = inr (built [])) as Hi by by apply __init___well_formed.
  split; [exact Hi|]. split; [reflexivity|].
  rewrite (parse_after_solve _ []) by constructor.
  vm_compute. reflexivity.
Qed.

(** C10. For every list of well-formed given cells that holds two givens
    for one coordinate with different nonzero values, construction succeeds
    and keeps a forcing constraint for each of the two (one constraint per
    nonzero given, none dropped), and [solve_puzzle] returns a status other
    than "Optimal" from any backend whose [Optimal] is sound. *)
Theorem duplicate_givens_not_optimal backend starting_cells k1 k2 :
  Forall well_formed starting_cells →
  optimal_sound_on backend (prob (built starting_cells)) →
  k1 ∈ starting_cells → k2 ∈ starting_cells →
  k1.1 = k2.1 → k1.2 ≠ 0 → k2.2 ≠ 0 → k1.2 ≠ k2.2 →
  __init__ starting_cells = inr (built starting_cells)
  ∧ eq_const [var k1] 1 ∈ constraints (prob (built starting_cells))
  ∧ eq_const [var k2] 1 ∈ constraints (prob (built starting_cells))
  ∧ eq_const [var k1] 1 ≠ eq_const [var k2] 1
  ∧ length (constraints (prob (built starting_cells)))
    = (324 + length (filter (λ k : Key, k.2 ≠ 0%Z) starting_cells))%nat
  ∧ (solve_puzzle backend (built starting_cells)).1 ≠ "Optimal"%string.
Proof.
  intros Hw Hsound H1 H2 Hrc Hn1 Hn2 Hv.
  pose proof (proj1 (Forall_forall _ _) Hw k1 H1) as Hw1.
  pose proof (proj1 (Forall_forall _ _) Hw k2 H2) as Hw2.
  assert (forced k1) as Hf1 by by apply well_formed_forced.
  assert (forced k2) as Hf2 by by apply well_formed_forced.
  pose proof (well_formed_forced_candidate k1 Hw1 Hf1) as Hc1.
  pose proof (well_formed_forced_candidate k2 Hw2 Hf2) as Hc2.
  assert (∀ k, k ∈ starting_cells → forced k →
            eq_const [var k] 1 ∈ constraints (prob (built starting_cells))) as Hin.
  { intros k Hk Hf. rewrite constraints_built. apply elem_of_app. right.
    apply (list_elem_of_fmap_2 (λ k, eq_const [var k] 1)), list_elem_of_filter. done. }
  split; [by apply __init___well_formed|].
  split; [by apply Hin|]. split; [by apply Hin|]. split; [|split].
  - intros [= Heq]. apply Hv. f_equal.
    apply var_inj_candidates; [by apply elem_of_candidates..|done].
  - rewrite constraints_built, forcing_constraints_nonzero by done.
    rewrite length_app, length_fmap. f_equal.
  - intros Hst.
    destruct (optimal_read backend starting_cells (well_formed_ok _ Hw) Hsound Hst)
      as (x & Hsat & _).
    apply Hv. f_equal.
    apply (exactly_one_unique (λ k, x (var k) = 1) (cell_group k1.1.1 k1.1.2)).
    + apply (sat_group x starting_cells Hsat), cell_group_in; apply elem_of_range;
        unfold is_candidate in Hc1; lia.
    + apply elem_of_cell_group. split; [by destruct k1 as [[??]?]|].
      apply elem_of_range. unfold is_candidate in Hc1. lia.
    + apply elem_of_cell_group. split; [rewrite <- Hrc; by destruct k1 as [[??]?]|].
      apply elem_of_range. unfold is_candidate in Hc2. lia.
    + by apply (sat_given x starting_cells).
    + by apply (sat_given x starting_cells).
Qed.

Lemma duplicate_givens_not_optimal_witness :
  Forall well_formed double_given
  ∧ optimal_sound_on refusing (prob (built double_given))
  ∧ (0, 0, 1) ∈ double_given ∧ (0, 0, 2) ∈ double_given
  ∧ __init__ double_given = inr (built double_given)
  ∧ eq_const [var (0, 0, 1)] 1 ∈ constraints (prob (built double_given))
  ∧ eq_const [var (0, 0, 2)] 1 ∈ constraints (prob (built double_given))
  ∧ eq_const [var (0, 0, 1)] 1 ≠ eq_const [var (0, 0, 2)] 1
  ∧ length (constraints (prob (built double_given)))
    = (324 + length (filter (λ k : Key, k.2 ≠ 0%Z) double_given))%nat
  ∧ (solve_puzzle refusing (built double_given)).1 ≠ "Optimal"%string.
Proof.
  assert (Forall well_formed double_given) as Hw
    by (apply (bool_decide_unpack _); vm_compute; exact I).
  assert (optimal_sound_on refusing (prob (built double_given))) as Hs
    by (intros [=]).
  assert ((0, 0, 1) ∈ double_given) as H1 by by left.
  assert ((0, 0, 2) ∈ double_given) as H2 by (right; by left).
  split; [exact Hw|]. split; [exact Hs|]. split; [exact H1|]. split; [exact H2|].
  apply (duplicate_givens_not_optimal refusing double_given
           (0, 0, 1) (0, 0, 2) Hw Hs H1 H2); cbn; (reflexivity || lia).
Defined.

(** * Further properties of the solver *)

(** The dictionary of decision variables has exactly the 729 candidate keys:
    a lookup succeeds with the variable named after the key when row and
    column are in [0,8] and the value is in [1,9], and finds nothing for any
    other key. *)
Theorem decision_variables_domain k :
  _set_decision_variables !! k
  = (if decide (is_candidate k) then Some (var k) else None)
  ∧ size _set_decision_variables = 729%nat.
Proof.
  split.
  - unfold _set_decision_variables. rewrite lookup_LpVariable_dicts. fold candidates.
    repeat case_decide; try done; rewrite elem_of_candidates in *; done.
  - vm_compute. reflexivity.
Qed.

(** The digits found in the name of a candidate's variable are its row,
    column and value, in this order; so two candidates never share a
    variable. *)
Theorem variable_name_round_trip k :
  is_candidate k →
  int_of_digits <$> findall_digits (var k) = [k.1.1; k.1.2; k.2]
  ∧ ∀ k', is_candidate k' → var k' = var k → k' = k.
Proof.
  intros Hk. split.
  - pose proof (proj1 (Forall_forall _ _) key_of_name_candidates k
                  (proj2 (elem_of_candidates k) Hk)) as Hr.
    unfold key_of_name in Hr.
    destruct (findall_digits (var k)) as [|a [|b [|c [|? ?]]]]; try discriminate.
    injection Hr as <-. reflexivity.
  - intros k' Hk' Heq. apply var_inj_candidates; [by apply elem_of_candidates..|done].
Qed.

Lemma variable_name_round_trip_witness :
  is_candidate (4, 7, 9)
  ∧ int_of_digits <$> findall_digits (var (4, 7, 9)) = [4; 7; 9]
  ∧ ∀ k', is_candidate k' → var k' = var (4, 7, 9) → k' = (4, 7, 9).
Proof.
  assert (is_candidate (4, 7, 9)) as Hk by (unfold is_candidate; cbn; lia).
  split; [exact Hk|]. apply (variable_name_round_trip (4, 7, 9) Hk).
Defined.

(** Reading the solution of a solver that was constructed but not yet
    solved raises nothing and returns the empty list. *)
Theorem parse_solution_before_solve starting_cells s :
  __init__ starting_cells = inr s → parse_solution s = inr [].
Proof.
  intros Hi. apply __init___inr in Hi as [Hok ->].
  rewrite parse_solution_eq by by apply variablesDict_built.
  reflexivity.
Qed.

Lemma parse_solution_before_solve_witness :
  __init__ hard_puzzle = inr (built hard_puzzle)
  ∧ parse_solution (built hard_puzzle) = inr [].
Proof.
  assert (__init__ hard_puzzle = inr (built hard_puzzle)) as Hi
    by apply __init___well_formed, hard_puzzle_well_formed.
  split; [exact Hi|].
  apply (parse_solution_before_solve hard_puzzle (built hard_puzzle) Hi).
Defined.

Lemma filter_forced_idemp (l : list Key) : filter forced (filter forced l) = filter forced l.
Proof.
  induction l as [|k l IH]; [done|]. destruct (decide (forced k)).
  - rewrite (filter_cons_True forced k l) by done.
    rewrite (filter_cons_True forced) by done. by rewrite IH.
  - by rewrite (filter_cons_False forced k l) by done.
Qed.

Lemma filter_rejected_forced (l : list Key) :
  filter rejected (filter forced l) = filter rejected l.
Proof.
  induction l as [|k l IH]; [done|]. destruct (decide (forced k)) as [Hf|Hf].
  - rewrite (filter_cons_True forced k l) by done.
    destruct (decide (rejected k)).
    + rewrite !(filter_cons_True rejected) by done. by rewrite IH.
    + rewrite !(filter_cons_False rejected) by done. done.
  - rewrite (filter_cons_False forced k l) by done.
    rewrite (filter_cons_False rejected k l); [done|]. by intros [? _].
Qed.

(** Givens whose value is 0 (or below) count for nothing: leaving them out
    of the list changes neither the outcome of construction nor the
    constraints built, hence neither the status nor the solution read back
    from any backend. *)
Theorem zero_givens_omitted backend starting_cells s :
  __init__ starting_cells = inr s →
  ∃ s', __init__ (filter (λ k, 0 < k.2) starting_cells) = inr s'
        ∧ constraints (prob s') = constraints (prob s)
        ∧ (solve_puzzle backend s').1 = (solve_puzzle backend s).1
        ∧ parse_solution (solve_puzzle backend s').2
          = parse_solution (solve_puzzle backend s).2.
Proof.
  intros Hi. apply __init___inr in Hi as [Hok ->].
  change (λ k : Key, 0 < k.2) with forced.
  assert (Forall (λ k, ¬ rejected k) (filter forced starting_cells)) as Hok'.
  { apply Forall_forall. intros k [_ Hk]%list_elem_of_filter.
    by apply (proj1 (Forall_forall _ _) Hok). }
  assert (constraints (prob (built (filter forced starting_cells)))
          = constraints (prob (built starting_cells))) as Hc.
  { rewrite !constraints_built. unfold forcing_constraints.
    by rewrite filter_forced_idemp. }
  exists (built (filter forced starting_cells)).
  split; [by apply __init___inr|]. split; [done|]. split.
  - by rewrite !solve_puzzle_status, Hc.
  - rewrite !parse_solution_eq, !solve_puzzle_values, Hc; [done|..];
      rewrite variablesDict_solve_puzzle; by apply variablesDict_built.
Qed.

Lemma zero_givens_omitted_witness :
  __init__ ((2, 2, 0) :: hard_puzzle) = inr (built ((2, 2, 0) :: hard_puzzle))
  ∧ ∃ s', __init__ (filter (λ k, 0 < k.2) ((2, 2, 0) :: hard_puzzle)) = inr s'
        ∧ constraints (prob s') = constraints (prob (built ((2, 2, 0) :: hard_puzzle)))
        ∧ (solve_puzzle (answering hard_puzzle_soln) s').1
          = (solve_puzzle (answering hard_puzzle_soln)
               (built ((2, 2, 0) :: hard_puzzle))).1
        ∧ parse_solution (solve_puzzle (answering hard_puzzle_soln) s').2
          = parse_solution (solve_puzzle (answering hard_puzzle_soln)
                              (built ((2, 2, 0) :: hard_puzzle))).2.
Proof.
  assert (__init__ ((2, 2, 0) :: hard_puzzle) = inr (built ((2, 2, 0) :: hard_puzzle)))
    as Hi.
  { apply __init___well_formed. constructor; [|apply hard_puzzle_well_formed].
    unfold well_formed. cbn. lia. }
  split; [exact Hi|].
  apply (zero_givens_omitted (answering hard_puzzle_soln) ((2, 2, 0) :: hard_puzzle)
           (built ((2, 2, 0) :: hard_puzzle)) Hi).
Defined.

(** The problem of a constructed solver is feasible exactly when some solved
    grid holds every given with a positive value. *)
Lemma feasible_iff_completable starting_cells :
  Forall (λ k, ¬ rejected k) starting_cells →
  feasible (prob (built starting_cells))
  ↔ ∃ sol, valid_solution sol ∧ ∀ k, k ∈ starting_cells → 0 < k.2 → k ∈ sol.
Proof.
  intros Hok. unfold feasible.
  rewrite variablesDict_built, constraints_built by done. split.
  - intros [x Hsat]. exists (filter (λ k, x (var k) = 1) candidates). split.
    + apply rules_give_valid_solution. by apply (sat_group x starting_cells).
    + intros k Hk Hpos. apply list_elem_of_filter. split.
      * by apply (sat_given x starting_cells).
      * apply elem_of_candidates. destruct (decide (is_candidate k)) as [|Hn]; [done|].
        destruct (proj1 (Forall_forall _ _) Hok k Hk). by split.
  - intros (sol & Hsol & Hgiv). exists (marks sol). by apply marks_satisfies.
Qed.

(** With a backend that keeps its contract, [solve_puzzle] returns
    "Optimal" exactly when the givens can be completed: when some solved
    grid holds every given that has a positive value. *)
Theorem optimal_iff_completable backend starting_cells s :
  __init__ starting_cells = inr s →
  exact_on backend (prob s) →
  (solve_puzzle backend s).1 = "Optimal"%string
  ↔ ∃ sol, valid_solution sol ∧ ∀ k, k ∈ starting_cells → 0 < k.2 → k ∈ sol.
Proof.
  intros Hi Hex. apply __init___inr in Hi as [Hok ->].
  rewrite <- feasible_iff_completable by done.
  destruct (exact_status backend (built starting_cells) Hex) as [Hyes Hno].
  split; [|done].
  rewrite solve_puzzle_status, LpStatus_Optimal. intros Hst.
  destruct (optimal_sound _ _ Hex Hst) as (x & _ & Hsat). by exists x.
Qed.


Lemma optimal_iff_completable_witness :
  __init__ hard_puzzle = inr (built hard_puzzle)
  ∧ exact_on (answering hard_puzzle_soln) (prob (built hard_puzzle))
  ∧ ((solve_puzzle (answering hard_puzzle_soln) (built hard_puzzle)).1
     = "Optimal"%string
     ↔ ∃ sol, valid_solution sol ∧ ∀ k, k ∈ hard_puzzle → 0 < k.2 → k ∈ sol).
Proof.
  assert (__init__ hard_puzzle = inr (built hard_puzzle)) as Hi
    by apply __init___well_formed, hard_puzzle_well_formed.
  split; [exact Hi|]. split; [apply hard_puzzle_exact|].
  apply (optimal_iff_completable (answering hard_puzzle_soln) hard_puzzle
           (built hard_puzzle) Hi hard_puzzle_exact).
Defined.



(** ** The text written by [write_solution_to_text] *)

(** A loop that only appends to its state. *)
Lemma foldM_writer {A B} (step : list B → A → Result (list B)) (G : A → list B) l f :
  (∀ a f, a ∈ l → step f a = inr (f ++ G a)) →
  foldM step l f = inr (f ++ (l ≫= G)).
Proof.
  revert f. induction l as [|a l IH]; intros f Hstep.
  - cbn. by rewrite app_nil_r.
  - cbn [foldM]. rewrite Hstep by by left. cbn [bind].
    rewrite IH by (intros; apply Hstep; by right).
    by rewrite bind_cons, app_assoc.
Qed.

Lemma write_solution_to_text_eq s :
  _all_cells s = _set_decision_variables →
  write_solution_to_text s
  = inr (all_writes (λ k, varValue (prob s) (var k) = Some 1)).
Proof.
  intros Hcells. unfold write_solution_to_text, all_writes.
  rewrite (foldM_writer _ (row_writes (λ k, varValue (prob s) (var k) = Some 1))).
  { done. }
  intros r f Hr. unfold row_writes.
  rewrite (foldM_writer _
    (λ c, v ← range 1 10; candidate_writes (λ k, varValue (prob s) (var k) = Some 1) r c v)).
  { case_decide; by rewrite <- ?app_assoc. }
  intros c f' Hc.
  apply foldM_writer. intros v f'' Hv.
  rewrite Hcells, getitem_all_cells.
  rewrite decide_True.
  2:{ apply elem_of_range in Hr, Hc, Hv. unfold is_candidate. cbn. lia. }
  cbn [bind]. unfold candidate_writes, value.
  destruct (decide (varValue (prob s) (var (r, c, v)) = Some 1)); [|by rewrite app_nil_r].
  unfold ret. f_equal. repeat case_decide; cbn [app]; by rewrite <- ?app_assoc, ?app_nil_r.
Qed.

(** *** The digits of the text *)

Lemma findall_digits_from_clean q a t run :
  is_digit a = false →
  findall_digits_from run ((q +:+ String a "") +:+ t)
  = findall_digits_from run (q +:+ String a "") ++ findall_digits_from [] t.
Proof.
  intros Ha. revert run. induction q as [|b q IH]; intros run.
  - change (("" +:+ String a "") +:+ t) with (String a t).
    change ("" +:+ String a "") with (String a "").
    cbn [findall_digits_from]. rewrite Ha.
    destruct run; cbn [app]; by rewrite ?app_nil_r.
  - change ((String b q +:+ String a "") +:+ t)
      with (String b ((q +:+ String a "") +:+ t)).
    change (String b q +:+ String a "") with (String b (q +:+ String a "")).
    cbn [findall_digits_from]. destruct (is_digit b).
    + apply IH.
    + rewrite IH. by rewrite app_assoc.
Qed.

Lemma findall_digits_app p t :
  clean p → findall_digits (p +:+ t) = findall_digits p ++ findall_digits t.
Proof. intros (q & a & -> & Ha). by apply findall_digits_from_clean. Qed.

Lemma findall_digits_content W :
  Forall clean W → findall_digits (file_content W) = W ≫= findall_digits.
Proof.
  induction 1 as [|p W Hp _ IH]; [done|].
  cbn [file_content foldr]. fold (file_content W).
  by rewrite findall_digits_app, IH, bind_cons.
Qed.

Lemma bind_ext_in {A B} (F G : A → list B) (l : list A) :
  (∀ a, a ∈ l → F a = G a) → l ≫= F = l ≫= G.
Proof.
  induction l as [|a l IH]; intros Heq; [done|].
  rewrite !bind_cons, Heq, IH; [done| |by left]. intros b Hb. apply Heq. by right.
Qed.

Lemma bind_bind {A B C} (F : A → list B) (G : B → list C) (l : list A) :
  (l ≫= F) ≫= G = l ≫= (λ a, F a ≫= G).
Proof.
  induction l as [|a l IH]; [done|]. by rewrite !bind_cons, bind_app, IH.
Qed.

Lemma fmap_bind_list {A B C} (g : B → C) (F : A → list B) (l : list A) :
  g <$> (l ≫= F) = l ≫= (λ a, g <$> F a).
Proof.
  induction l as [|a l IH]; [done|]. by rewrite !bind_cons, fmap_app, IH.
Qed.

Lemma digit_write v :
  v ∈ range 1 10 → clean (pretty v +:+ " ") ∧ numbers_in (pretty v +:+ " ") = [v].
Proof.
  intros Hv. split.
  - exists (pretty v), " "%char. done.
  - range_cases Hv; vm_compute; reflexivity.
Qed.

Lemma candidate_writes_clean (P : Key → Prop) `{!∀ k, Decision (P k)} r c v :
  v ∈ range 1 10 → Forall clean (candidate_writes P r c v).
Proof.
  intros Hv. unfold candidate_writes. case_decide; [|constructor].
  apply Forall_app. split; [|apply Forall_app; split].
  - case_decide; [|constructor]. apply Forall_singleton. by exists "|", " "%char.
  - apply Forall_singleton. by apply digit_write.
  - case_decide; [|constructor]. apply Forall_singleton. by exists "|", "010"%char.
Qed.

Lemma candidate_writes_numbers (P : Key → Prop) `{!∀ k, Decision (P k)} r c v :
  v ∈ range 1 10 →
  candidate_writes P r c v ≫= numbers_in = if decide (P (r, c, v)) then [v] else [].
Proof.
  intros Hv. unfold candidate_writes. case_decide; [|done].
  rewrite !bind_app.
  assert ([pretty v +:+ " "] ≫= numbers_in = [v]) as ->.
  { cbn. rewrite (proj2 (digit_write v Hv)). done. }
  repeat case_decide; reflexivity.
Qed.

Lemma all_writes_clean (P : Key → Prop) `{!∀ k, Decision (P k)} :
  Forall clean (all_writes P).
Proof.
  unfold all_writes. apply Forall_app. split.
  - apply Forall_forall. intros p (r & Hp & Hr)%list_elem_of_bind.
    unfold row_writes in Hp. apply elem_of_app in Hp as [Hp|Hp].
    + case_decide; [|by apply elem_of_nil in Hp].
      apply list_elem_of_singleton in Hp as ->.
      by exists "+-------+-------+-------+", "010"%char.
    + apply list_elem_of_bind in Hp as (c & Hp & Hc).
      apply list_elem_of_bind in Hp as (v & Hp & Hv).
      by apply (proj1 (Forall_forall _ _) (candidate_writes_clean P r c v Hv)).
  - apply Forall_singleton. by exists "+-------+-------+-------", "+"%char.
Qed.

Lemma all_writes_numbers (P : Key → Prop) `{!∀ k, Decision (P k)} :
  numbers_in (file_content (all_writes P)) = snd <$> filter P candidates.
Proof.
  unfold numbers_in. rewrite findall_digits_content by apply all_writes_clean.
  rewrite fmap_bind_list. fold numbers_in.
  change (λ a, int_of_digits <$> findall_digits a) with numbers_in.
  unfold all_writes. rewrite bind_app, bind_bind.
  replace ([("+-------+-------+-------+")%string] ≫= numbers_in) with (@nil Z)
    by (vm_compute; reflexivity).
  rewrite app_nil_r. unfold candidates.
  rewrite filter_bind, fmap_bind_list. apply bind_ext_in. intros r Hr.
  unfold row_writes. rewrite bind_app.
  replace ((if decide (r ∈ [0; 3; 6])
            then [("+-------+-------+-------+" +:+ nl)%string] else []) ≫= numbers_in)
    with (@nil Z) by (case_decide; vm_compute; reflexivity).
  cbn [app]. rewrite bind_bind, filter_bind, fmap_bind_list.
  apply bind_ext_in. intros c Hc.
  rewrite bind_bind, filter_bind, fmap_bind_list.
  apply bind_ext_in. intros v Hv.
  rewrite candidate_writes_numbers by done.
  destruct (decide (P (r, c, v))).
  - by rewrite filter_cons_True.
  - by rewrite filter_cons_False.
Qed.

(** Whatever the backend answered, the text written for a constructed and
    solved solver holds, as its numbers read in order, the values of the
    triples that [parse_solution] returns. *)
Theorem text_numbers_are_solution backend starting_cells s :
  __init__ starting_cells = inr s →
  ∃ sol writes,
    parse_solution (solve_puzzle backend s).2 = inr sol
    ∧ write_solution_to_text (solve_puzzle backend s).2 = inr writes
    ∧ int_of_digits <$> findall_digits (file_content writes) = snd <$> sol.
Proof.
  intros Hi. apply __init___inr in Hi as [Hok ->].
  eexists _, _. split; [|split].
  - apply parse_solution_eq.
    rewrite variablesDict_solve_puzzle. by apply variablesDict_built.
  - by apply write_solution_to_text_eq.
  - apply (all_writes_numbers
             (λ k, varValue (prob (solve_puzzle backend (built starting_cells)).2) (var k)
                   = Some 1)).
Qed.

Lemma text_numbers_are_solution_witness :
  __init__ hard_puzzle = inr (built hard_puzzle)
  ∧ ∃ sol writes,
      parse_solution (solve_puzzle (answering hard_puzzle_soln) (built hard_puzzle)).2
      = inr sol
      ∧ write_solution_to_text
          (solve_puzzle (answering hard_puzzle_soln) (built hard_puzzle)).2
        = inr writes
      ∧ int_of_digits <$> findall_digits (file_content writes) = snd <$> sol.
Proof.
  assert (__init__ hard_puzzle = inr (built hard_puzzle)) as Hi
    by apply __init___well_formed, hard_puzzle_well_formed.
  split; [exact Hi|].
  apply (text_numbers_are_solution (answering hard_puzzle_soln) hard_puzzle
           (built hard_puzzle) Hi).
Defined.

(** *** The picture of a solved grid *)

Lemma bind_decide_filter {A B} (Q : A → Prop) `{!∀ a, Decision (Q a)}
    (G : A → list B) (l : list A) :
  l ≫= (λ a, if decide (Q a) then G a else []) = filter Q l ≫= G.
Proof.
  induction l as [|a l IH]; [done|]. rewrite bind_cons, IH.
  destruct (decide (Q a)).
  - by rewrite filter_cons_True, bind_cons.
  - by rewrite filter_cons_False.
Qed.

Lemma filter_fmap_list {A B} (g : A → B) (Q : B → Prop) `{!∀ b, Decision (Q b)}
    (l : list A) :
  filter Q (g <$> l) = g <$> filter (λ a, Q (g a)) l.
Proof.
  induction l as [|a l IH]; [done|]. rewrite fmap_cons.
  destruct (decide (Q (g a))).
  - rewrite (filter_cons_True Q), (filter_cons_True (λ a, Q (g a))) by done.
    by rewrite fmap_cons, IH.
  - by rewrite (filter_cons_False Q), (filter_cons_False (λ a, Q (g a))).
Qed.

(** The layout of the writes, for any way of showing a value. *)
Lemma layout_with (show : Z → string) (g : Z → Z → Z) :
  (r ← range 0 9;
   (if decide (r ∈ [0; 3; 6]) then ["+-------+-------+-------+" +:+ nl] else [])
   ++ (c ← range 0 9;
       (if decide (c ∈ [0; 3; 6]) then ["| "] else [])
       ++ [show (g r c)] ++ (if decide (c = 8) then ["|" +:+ nl] else [])))
  ++ ["+-------+-------+-------+"]
  = let vs := (λ rc : Z * Z, g rc.1 rc.2) <$> cells in
    let row vs := ["| "] ++ (show <$> take 3 vs)
                  ++ ["| "] ++ (show <$> take 3 (drop 3 vs))
                  ++ ["| "] ++ (show <$> drop 6 vs) ++ ["|" +:+ nl] in
    let band vs := ["+-------+-------+-------+" +:+ nl]
                   ++ row (take 9 vs) ++ row (take 9 (drop 9 vs)) ++ row (drop 18 vs) in
    band (take 27 vs) ++ band (take 27 (drop 27 vs)) ++ band (drop 54 vs)
    ++ ["+-------+-------+-------+"].
Proof. vm_compute. reflexivity. Qed.

Section solved_text.
Context (P : Key → Prop) `{!∀ k, Decision (P k)}.
Hypothesis HP : ∀ g, g ∈ groups → exactly_one P g.

Lemma cell_value_filter r c :
  r ∈ range 0 9 → c ∈ range 0 9 →
  filter (λ v, P (r, c, v)) (range 1 10) = [cell_value P r c].
Proof.
  intros Hr Hc. pose proof (HP _ (cell_group_in r c Hr Hc)) as H1.
  unfold exactly_one, cell_group in H1.
  rewrite (filter_fmap_list (λ v, (r, c, v)) P), length_fmap in H1.
  unfold cell_value.
  destruct (filter (λ v, P (r, c, v)) (range 1 10)) as [|v [|? ?]]; done.
Qed.

Lemma solved_values :
  snd <$> filter P candidates = (λ rc : Z * Z, cell_value P rc.1 rc.2) <$> cells.
Proof.
  rewrite candidates_by_cell, filter_bind, fmap_bind_list.
  transitivity (cells ≫= (λ rc, [cell_value P rc.1 rc.2])).
  - apply bind_ext_in. intros [r c] [Hr Hc]%elem_of_cells. cbn [fst snd] in *.
    unfold cell_group. rewrite (filter_fmap_list (λ v, (r, c, v)) P).
    by rewrite cell_value_filter.
  - induction cells as [|rc l IH]; [done|]. by rewrite bind_cons, fmap_cons, IH.
Qed.

Lemma solved_writes : all_writes P = grid_text (snd <$> filter P candidates).
Proof.
  rewrite solved_values.
  etransitivity; [|exact (layout_with show_value (cell_value P))].
  unfold all_writes. f_equal. apply bind_ext_in. intros r Hr.
  unfold row_writes. f_equal. apply bind_ext_in. intros c Hc.
  unfold candidate_writes.
  rewrite (bind_decide_filter (λ v, P (r, c, v))
             (λ v, (if decide (c ∈ [0; 3; 6]) then ["| "] else [])
                   ++ [pretty v +:+ " "]
                   ++ (if decide (c = 8) then ["|" +:+ nl] else []))).
  rewrite cell_value_filter by done. cbn [mbind list_bind]. by rewrite app_nil_r.
Qed.
End solved_text.

(** After a status of "Optimal" from a backend whose [Optimal] is sound,
    the strings written are the picture of the solution that
    [parse_solution] returns: a separator line above every band of three
    rows and at the end, and for every row its nine values, each followed
    by a blank, with a bar before every third value and a bar and a newline
    after the ninth. *)
Theorem text_of_solved_grid backend starting_cells s :
  __init__ starting_cells = inr s →
  optimal_sound_on backend (prob s) →
  (solve_puzzle backend s).1 = "Optimal"%string →
  ∃ sol, parse_solution (solve_puzzle backend s).2 = inr sol
         ∧ write_solution_to_text (solve_puzzle backend s).2
           = inr (grid_text (snd <$> sol)).
Proof.
  intros Hi Hsound Hst. apply __init___inr in Hi as [Hok ->].
  rewrite solve_puzzle_status in Hst. apply LpStatus_Optimal in Hst.
  destruct (Hsound Hst) as (x & Hagree & Hsat).
  rewrite variablesDict_built in Hagree, Hsat by done.
  rewrite constraints_built in Hsat.
  set (P := λ k, (backend (constraints (prob (built starting_cells)))).2 (var k) = Some 1).
  assert (∀ k, is_candidate k → x (var k) = 1 ↔ P k) as Hiff.
  { intros k Hk. unfold P.
    rewrite (proj1 (Forall_forall _ _) Hagree (var k))
      by by apply list_elem_of_fmap_2, elem_of_candidates.
    split; [by intros ->|by intros [=]]. }
  assert (∀ g, g ∈ groups → exactly_one P g) as HP.
  { intros g Hg. apply (exactly_one_iff (λ k, x (var k) = 1) P).
    - intros k Hk. by apply Hiff, (elem_of_group_candidate g).
    - by apply (sat_group x starting_cells). }
  exists (filter P candidates). split.
  - rewrite parse_solution_eq, solve_puzzle_values; [done|].
    rewrite variablesDict_solve_puzzle. by apply variablesDict_built.
  - rewrite write_solution_to_text_eq, solve_puzzle_values by done.
    f_equal. by apply solved_writes.
Qed.

Lemma text_of_solved_grid_witness :
  __init__ hard_puzzle = inr (built hard_puzzle)
  ∧ optimal_sound_on (answering hard_puzzle_soln) (prob (built hard_puzzle))
  ∧ (solve_puzzle (answering hard_puzzle_soln) (built hard_puzzle)).1
    = "Optimal"%string
  ∧ ∃ sol, parse_solution
             (solve_puzzle (answering hard_puzzle_soln) (built hard_puzzle)).2
           = inr sol
           ∧ write_solution_to_text
               (solve_puzzle (answering hard_puzzle_soln) (built hard_puzzle)).2
             = inr (grid_text (snd <$> sol)).
Proof.
  assert (__init__ hard_puzzle = inr (built hard_puzzle)) as Hi
    by apply __init___well_formed, hard_puzzle_well_formed.
  assert (optimal_sound_on (answering hard_puzzle_soln) (prob (built hard_puzzle)))
    as Hs by apply exact_optimal_sound, hard_puzzle_exact.
  split; [exact Hi|]. split; [exact Hs|]. split; [reflexivity|].
  apply (text_of_solved_grid (answering hard_puzzle_soln) hard_puzzle
           (built hard_puzzle) Hi Hs).
  reflexivity.
Defined.

(** Written before any solve, the file holds the four separator lines and
    nothing else: the bars and the ends of the rows are written only
    together with a value. *)
Theorem text_before_solve starting_cells s :
  __init__ starting_cells = inr s →
  ∃ writes, write_solution_to_text s = inr writes
            ∧ file_content writes
              = "+-------+-------+-------+" +:+ nl
                +:+ "+-------+-------+-------+" +:+ nl
                +:+ "+-------+-------+-------+" +:+ nl
                +:+ "+-------+-------+-------+".
Proof.
  intros Hi. apply __init___inr in Hi as [Hok ->].
  eexists. split; [by apply write_solution_to_text_eq|].
  vm_compute. reflexivity.
Qed.

Lemma text_before_solve_witness :
  __init__ hard_puzzle = inr (built hard_puzzle)
  ∧ ∃ writes, write_solution_to_text (built hard_puzzle) = inr writes
              ∧ file_content writes
                = "+-------+-------+-------+" +:+ nl
                  +:+ "+-------+-------+-------+" +:+ nl
                  +:+ "+-------+-------+-------+" +:+ nl
                  +:+ "+-------+-------+-------+".
Proof.
  assert (__init__ hard_puzzle = inr (built hard_puzzle)) as Hi
    by apply __init___well_formed, hard_puzzle_well_formed.
  split; [exact Hi|].
  apply (text_before_solve hard_puzzle (built hard_puzzle) Hi).
Defined.

(** * The terminal interface *)

Import main.

Lemma cell_id_table :
  Forall (λ rc, get_cell_row_col (cell_id rc.1 rc.2) = inr rc) cells.
Proof.
  apply Forall_forall. intros [r c] [Hr Hc]%elem_of_cells. cbn [fst snd] in *.
  range_cases Hr; range_cases Hc; vm_compute; reflexivity.
Qed.

(** The id of a cell of the grid is read back as its row and column. *)
Theorem cell_id_round_trip row col :
  0 ≤ row ≤ 8 → 0 ≤ col ≤ 8 →
  get_cell_row_col (cell_id row col) = inr (row, col).
Proof.
  intros Hr Hc.
  apply (proj1 (Forall_forall _ _) cell_id_table (row, col)).
  apply elem_of_cells. rewrite !elem_of_range. cbn. lia.
Qed.

Lemma cell_id_round_trip_witness :
  0 ≤ 4 ≤ 8 ∧ 0 ≤ 7 ≤ 8 ∧ get_cell_row_col (cell_id 4 7) = inr (4, 7).
Proof.
  split; [lia|]. split; [lia|]. apply (cell_id_round_trip 4 7); lia.
Defined.

(** The boxes of the interface are the boxes of the solver: the box number
    [b] is composed of the nine cells of block row [b // 3] and block column
    [b % 3], all empty; and the nine boxes together hold every cell of the
    grid once. *)
Theorem boxes_are_solver_boxes :
  Forall (λ b, Box_compose (box_id b)
               = inr ((λ rc, {| id := cell_id rc.1 rc.2; output := Empty_x |})
                        <$> box_cells (b `div` 3) (b `mod` 3)))
         (range 0 9)
  ∧ compose = inr ((λ rc, {| id := cell_id rc.1 rc.2; output := Empty_x |})
                     <$> dom_cells)
  ∧ dom_cells ≡ₚ cells.
Proof.
  split; [|split].
  - repeat constructor; vm_compute; reflexivity.
  - vm_compute. reflexivity.
  - apply (bool_decide_unpack _). vm_compute. exact I.
Qed.






(** ** Reading the grid of the interface *)

Lemma dom_cells_perm : dom_cells ≡ₚ cells.
Proof. apply (bool_decide_unpack _). vm_compute. exact I. Qed.

Lemma NoDup_dom_cells : NoDup dom_cells.
Proof. rewrite dom_cells_perm. apply NoDup_cells. Qed.

Lemma elem_of_dom_cells rc : rc ∈ dom_cells ↔ rc ∈ cells.
Proof. by rewrite dom_cells_perm. Qed.

Lemma cell_id_inj rc1 rc2 :
  rc1 ∈ cells → rc2 ∈ cells → cell_id rc1.1 rc1.2 = cell_id rc2.1 rc2.2 → rc1 = rc2.
Proof.
  intros H1 H2 Heq.
  pose proof (proj1 (Forall_forall _ _) cell_id_table rc1 H1) as E1.
  pose proof (proj1 (Forall_forall _ _) cell_id_table rc2 H2) as E2.
  cbn beta in E1, E2. rewrite Heq in E1. congruence.
Qed.

Lemma parse_grid_loop rcs cs acc :
  Forall (λ rc, rc ∈ cells) rcs →
  id <$> cs = (λ rc, cell_id rc.1 rc.2) <$> rcs →
  ui_foldM (λ grid cell,
              rc ←? get_cell_row_col (id cell) ;;
              let '(row, col) := rc in
              let val := match output cell with
                         | Empty_x => 0
                         | Number n => n
                         end in
              inr (grid ++ [(row, col, val)]))
           cs acc
  = inr (acc ++ zip_with read_cell rcs cs).
Proof.
  intros Hrcs. revert cs acc. induction Hrcs as [|rc rcs Hrc _ IH]; intros cs acc Hids.
  - destruct cs; [|done]. cbn. by rewrite app_nil_r.
  - destruct cs as [|cell cs]; [done|]. rewrite !fmap_cons in Hids.
    injection Hids as Hid Hids. cbn [ui_foldM zip_with].
    pose proof (proj1 (Forall_forall _ _) cell_id_table rc Hrc) as Hrt.
    cbn beta in Hrt. rewrite Hid, Hrt. cbn [ui_bind].
    destruct rc as [row col]. etransitivity; [by apply IH|].
    rewrite <- app_assoc. do 2 f_equal.
Qed.

Lemma parse_grid_eq app :
  id <$> grid_cells app = (λ rc, cell_id rc.1 rc.2) <$> dom_cells →
  parse_grid app = inr (zip_with read_cell dom_cells (grid_cells app)).
Proof.
  intros Hids. unfold parse_grid. rewrite (parse_grid_loop dom_cells); [done| |done].
  apply Forall_forall. intros rc. apply elem_of_dom_cells.
Qed.


Lemma well_formed_zip_read rcs cs :
  Forall (λ rc, rc ∈ cells) rcs →
  Forall (λ cell, valid_output (output cell)) cs →
  Forall well_formed (zip_with read_cell rcs cs).
Proof.
  intros Hrcs. revert cs. induction Hrcs as [|rc rcs Hrc _ IH]; intros cs Hcs.
  - constructor.
  - destruct Hcs as [|c cs Hc Hcs]; [constructor|]. cbn [zip_with]. constructor.
    + apply elem_of_cells in Hrc as [?%elem_of_range ?%elem_of_range].
      unfold well_formed, read_cell. cbn [fst snd].
      destruct (output c); cbn in *; lia.
    + by apply IH.
Qed.


Lemma parse_grid_givens app :
  app_ok app →
  ∃ givens, parse_grid app = inr givens ∧ Forall well_formed givens.
Proof.
  intros [Hids Hout _]. eexists. split; [by apply parse_grid_eq|].
  apply well_formed_zip_read; [|done].
  apply Forall_forall. intros rc. apply elem_of_dom_cells.
Qed.


Lemma fresh_app_ok row col : 0 ≤ row ≤ 8 → 0 ≤ col ≤ 8 → app_ok (fresh_app row col).
Proof.
  intros Hr Hc. split.
  - unfold fresh_app. cbn [grid_cells]. rewrite <- list_fmap_compose. done.
  - unfold fresh_app. cbn [grid_cells]. apply Forall_fmap, Forall_forall. by intros.
  - exists (row, col). split; [|done]. apply elem_of_cells. rewrite !elem_of_range. cbn. lia.
Qed.


(** ** Showing a solution *)

Lemma list_find_id (cs : list Cell) i cid c :
  NoDup (id <$> cs) → cs !! i = Some c → id c = cid →
  list_find (λ cell, id cell = cid) cs = Some (i, c).
Proof.
  intros Hnd Hi Hid. apply list_find_Some. split; [done|]. split; [done|].
  intros j y Hj Hlt Hy.
  assert (i = j); [|lia].
  apply (NoDup_lookup (id <$> cs) i j cid); [done|..].
  - by rewrite list_lookup_fmap, Hi; cbn; rewrite Hid.
  - by rewrite list_lookup_fmap, Hj; cbn; rewrite Hy.
Qed.

Lemma NoDup_dom_ids : NoDup ((λ rc : Z * Z, cell_id rc.1 rc.2) <$> dom_cells).
Proof.
  apply NoDup_fmap_2_strong; [|apply NoDup_dom_cells].
  intros rc1 rc2 H1%elem_of_dom_cells H2%elem_of_dom_cells. by apply cell_id_inj.
Qed.

Lemma lookup_dom app i rc :
  id <$> grid_cells app = (λ rc, cell_id rc.1 rc.2) <$> dom_cells →
  dom_cells !! i = Some rc →
  ∃ c, grid_cells app !! i = Some c ∧ id c = cell_id rc.1 rc.2.
Proof.
  intros Hids Hi.
  assert ((id <$> grid_cells app) !! i = Some (cell_id rc.1 rc.2)) as H
    by by rewrite Hids, list_lookup_fmap, Hi.
  rewrite list_lookup_fmap in H.
  destruct (grid_cells app !! i) as [c|]; [|done]. exists c. split; [done|].
  by injection H.
Qed.

Lemma set_output_eq app i rc v :
  id <$> grid_cells app = (λ rc, cell_id rc.1 rc.2) <$> dom_cells →
  dom_cells !! i = Some rc →
  set_output app (cell_id rc.1 rc.2) v
  = inr {| grid_cells := <[i := {| id := cell_id rc.1 rc.2; output := Number v |}]>
                           (grid_cells app);
           focused := focused app; logger := logger app |}.
Proof.
  intros Hids Hi. destruct (lookup_dom app i rc Hids Hi) as (c & Hc & Hid).
  unfold set_output. rewrite (list_find_id _ i _ c); [by rewrite Hid| |done..].
  rewrite Hids. apply NoDup_dom_ids.
Qed.

Lemma ids_insert (cs : list Cell) i c o :
  cs !! i = Some c → id <$> <[i := {| id := id c; output := o |}]> cs = id <$> cs.
Proof.
  intros Hi. rewrite list_fmap_insert. cbn [id].
  apply list_insert_id. by rewrite list_lookup_fmap, Hi.
Qed.

(** The loop of [display_solution] over triples at cells of the grid: it
    raises nothing, keeps the ids, the focus and the logger, and leaves in
    every cell either its old output, when no triple has its coordinate, or
    the value of a triple with its coordinate. *)
Lemma display_loop sol app :
  id <$> grid_cells app = (λ rc, cell_id rc.1 rc.2) <$> dom_cells →
  Forall (λ k, k.1 ∈ cells) sol →
  ∃ app',
    ui_foldM (λ app '(row, col, val), set_output app (cell_id row col) val) sol app
    = inr app'
    ∧ id <$> grid_cells app' = id <$> grid_cells app
    ∧ focused app' = focused app ∧ logger app' = logger app
    ∧ ∀ i rc c, dom_cells !! i = Some rc → grid_cells app !! i = Some c →
        ∃ c', grid_cells app' !! i = Some c'
              ∧ (((rc ∉ (fst <$> sol)) ∧ output c' = output c)
                 ∨ ∃ v, (rc.1, rc.2, v) ∈ sol ∧ output c' = Number v).
Proof.
  intros Hids Hsol. revert app Hids.
  induction Hsol as [|[[row col] v] sol Hk _ IH]; intros app Hids.
  - exists app. split; [done|]. do 3 (split; [done|]).
    intros i rc c _ Hc. exists c. split; [done|]. left. split; [|done].
    by intros ?%elem_of_nil.
  - cbn [fst] in Hk. apply elem_of_dom_cells in Hk as Hk'.
    apply list_elem_of_lookup in Hk' as [j Hj].
    destruct (lookup_dom app j (row, col) Hids Hj) as (cj & Hcj & Hidj).
    pose proof (set_output_eq app j (row, col) v Hids Hj) as Hset.
    cbn [fst snd] in Hset. cbn [ui_foldM]. rewrite Hset. cbn [ui_bind].
    set (app1 := {| grid_cells := <[j := {| id := cell_id row col; output := Number v |}]>
                                    (grid_cells app);
                    focused := focused app; logger := logger app |}).
    assert (id <$> grid_cells app1 = id <$> grid_cells app) as Hids1.
    { unfold app1. cbn [grid_cells]. cbn [fst snd] in Hidj. rewrite <- Hidj.
      by apply ids_insert. }
    destruct (IH app1) as (app' & Hrun & Hids' & Hf & Hl & Hcells).
    { by rewrite Hids1. }
    exists app'. split; [done|]. split; [by rewrite Hids', Hids1|].
    split; [done|]. split; [done|].
    intros i rc c Hi Hc.
    assert (∃ c1, grid_cells app1 !! i = Some c1
                  ∧ ((i = j ∧ output c1 = Number v) ∨ (i ≠ j ∧ c1 = c))) as (c1 & Hc1 & Hcase).
    { unfold app1. cbn [grid_cells]. destruct (decide (i = j)) as [->|Hne].
      - eexists. split; [apply list_lookup_insert_eq; by eapply lookup_lt_Some|].
        left. done.
      - exists c. split; [by rewrite list_lookup_insert_ne|]. by right. }
    destruct (Hcells i rc c1 Hi Hc1) as (c' & Hc' & Hout).
    exists c'. split; [done|].
    destruct Hout as [[Hnot Hsame]|(w & Hw & Hout)].
    + destruct Hcase as [[-> Hv]|[Hne ->]].
      * right. exists v. rewrite Hj in Hi. injection Hi as <-.
        split; [by left|congruence].
      * left. split; [|done]. rewrite fmap_cons, not_elem_of_cons. split; [|done].
        cbn [fst]. intros ->. apply Hne.
        by apply (NoDup_lookup dom_cells i j (row, col)); [apply NoDup_dom_cells|..].
    + right. exists w. split; [by right|done].
Qed.

(** ** Solving from the interface *)

Lemma get_solution_eq backend givens :
  Forall well_formed givens →
  get_solution backend givens
  = inr (if decide ((solve_puzzle backend (built givens)).1 = "Optimal"%string)
         then Some (chosen backend givens) else None).
Proof.
  intros Hw. unfold get_solution. cbn [new_Solver].
  rewrite (__init___well_formed givens Hw). cbn [of_solver ui_bind].
  destruct (solve_puzzle backend (built givens)) as [status solver] eqn:Hrun.
  cbn [fst]. case_decide; [|done].
  assert (solver = (solve_puzzle backend (built givens)).2) as -> by by rewrite Hrun.
  rewrite parse_solution_eq.
  - cbn [of_solver ui_bind]. by rewrite solve_puzzle_values.
  - rewrite variablesDict_solve_puzzle. by apply variablesDict_built, well_formed_ok.
Qed.

Lemma chosen_candidates backend givens :
  Forall is_candidate (chosen backend givens).
Proof.
  apply Forall_forall. intros k [_ Hk]%list_elem_of_filter. by apply elem_of_candidates.
Qed.

Lemma candidate_in_cells k : is_candidate k → k.1 ∈ cells.
Proof.
  intros [[Hr Hc] _]. apply elem_of_cells. rewrite !elem_of_range. lia.
Qed.

Lemma display_message_ok now app message :
  app_ok app → app_ok (display_message now app message).
Proof. intros [H1 H2 H3]. by split. Qed.

(** [action_solve] is safe for every backend: on a well-formed application
    it raises nothing and returns a well-formed application with the same
    cells under the same ids and the same focus. *)
Theorem action_solve_safe backend now app :
  app_ok app →
  ∃ app', action_solve backend now app = inr app'
          ∧ app_ok app'
          ∧ id <$> grid_cells app' = id <$> grid_cells app
          ∧ focused app' = focused app.
Proof.
  intros Hok. destruct (parse_grid_givens app Hok) as (givens & Hparse & Hw).
  unfold action_solve. rewrite Hparse. cbn [ui_bind].
  rewrite (get_solution_eq backend givens Hw). cbn [ui_bind].
  assert (∃ app', (inr (display_message now app "Solution not found")
                   : UiResult SudokuApp) = inr app'
                  ∧ app_ok app' ∧ id <$> grid_cells app' = id <$> grid_cells app
                  ∧ focused app' = focused app) as Hnot.
  { eexists. split; [done|]. split; [by apply display_message_ok|done]. }
  case_decide; [|exact Hnot].
  unfold display_solution.
  destruct (chosen backend givens) as [|k sol] eqn:Hch; [exact Hnot|].
  rewrite <- Hch. clear Hnot.
  destruct (display_loop (chosen backend givens) app) as (app' & -> & Hids & Hf & Hl & Hcells).
  { apply (ok_ids _ Hok). }
  { eapply Forall_impl; [apply chosen_candidates|]. apply candidate_in_cells. }
  cbn [ui_bind]. eexists. split; [done|]. split; [|done].
  apply display_message_ok. split.
  - rewrite Hids. apply (ok_ids _ Hok).
  - apply Forall_forall. intros c' Hc'.
    apply list_elem_of_lookup in Hc' as [i Hi].
    assert (i < length dom_cells)%nat as Hlt.
    { rewrite <- (length_fmap (λ rc : Z * Z, cell_id rc.1 rc.2)), <- (ok_ids _ Hok),
        <- Hids, length_fmap. by eapply lookup_lt_Some. }
    apply lookup_lt_is_Some in Hlt as [rc Hrc].
    destruct (lookup_dom app i rc (ok_ids _ Hok) Hrc) as (c & Hc & _).
    destruct (Hcells i rc c Hrc Hc) as (c'' & Hc'' & Hout).
    rewrite Hi in Hc''. injection Hc'' as <-.
    destruct Hout as [[_ ->]|(v & Hv & ->)].
    + apply (proj1 (Forall_forall _ _) (ok_outputs _ Hok)).
      by eapply list_elem_of_lookup_2.
    + pose proof (proj1 (Forall_forall _ _) (chosen_candidates backend givens) _ Hv)
        as [_ Hr]. exact Hr.
  - rewrite Hf. apply (ok_focus _ Hok).
Qed.

Lemma action_solve_safe_witness :
  app_ok (fresh_app 0 0)
  ∧ ∃ app', action_solve refusing "12:00:00" (fresh_app 0 0) = inr app'
          ∧ app_ok app'
          ∧ id <$> grid_cells app' = id <$> grid_cells (fresh_app 0 0)
          ∧ focused app' = focused (fresh_app 0 0).
Proof.
  assert (app_ok (fresh_app 0 0)) as Hok by (apply fresh_app_ok; lia).
  split; [exact Hok|].
  apply (action_solve_safe refusing "12:00:00" (fresh_app 0 0) Hok).
Defined.


(** When the status is not "Optimal" the grid is left as it is and the
    logger says that no solution was found. *)
Theorem action_solve_not_found backend now app givens :
  app_ok app →
  parse_grid app = inr givens →
  (solve_puzzle backend (built givens)).1 ≠ "Optimal"%string →
  action_solve backend now app
  = inr {| grid_cells := grid_cells app; focused := focused app;
           logger := now +:+ ": Solution not found" |}.
Proof.
  intros Hok Hparse Hst.
  destruct (parse_grid_givens app Hok) as (givens' & Hparse' & Hw).
  assert (givens' = givens) as -> by congruence.
  unfold action_solve. rewrite Hparse. cbn [ui_bind].
  rewrite (get_solution_eq backend givens Hw). cbn [ui_bind].
  by rewrite decide_False.
Qed.

Lemma fresh_givens : parse_grid (fresh_app 0 0) = inr ((λ rc, (rc.1, rc.2, 0)) <$> dom_cells).
Proof. vm_compute. reflexivity. Qed.

Lemma action_solve_not_found_witness :
  app_ok (fresh_app 0 0)
  ∧ parse_grid (fresh_app 0 0) = inr ((λ rc, (rc.1, rc.2, 0)) <$> dom_cells)
  ∧ (solve_puzzle refusing (built ((λ rc, (rc.1, rc.2, 0)) <$> dom_cells))).1
    ≠ "Optimal"%string
  ∧ action_solve refusing "12:00:00" (fresh_app 0 0)
    = inr {| grid_cells := grid_cells (fresh_app 0 0);
             focused := focused (fresh_app 0 0);
             logger := "12:00:00" +:+ ": Solution not found" |}.
Proof.
  assert (app_ok (fresh_app 0 0)) as Hok by (apply fresh_app_ok; lia).
  assert ((solve_puzzle refusing (built ((λ rc, (rc.1, rc.2, 0)) <$> dom_cells))).1
          ≠ "Optimal"%string) as Hst by (intros [=]).
  split; [exact Hok|]. split; [exact fresh_givens|]. split; [exact Hst|].
  apply (action_solve_not_found refusing "12:00:00" (fresh_app 0 0) _ Hok fresh_givens Hst).
Defined.



(** ** Moving the focus *)





Section focus.
Context (app : SudokuApp) (row col : Z).
Hypothesis Hok : app_ok app.
Hypothesis Hfocus : focused app = cell_id row col.
Hypothesis Hrow : 0 ≤ row ≤ 8.
Hypothesis Hcol : 0 ≤ col ≤ 8.






End focus.





